(** * salesman.py: simulated annealing for the travelling salesman problem

    A shallow embedding of the functions of [salesman.py] and the proofs of
    the properties stated about them.

    Conventions of the embedding.
    - Python [float] values are idealised as real numbers ([R]): rounding,
      overflow, infinities and NaN are outside the model.
    - Python [int] values are unbounded integers ([Z]); the cap that recent
      interpreters put on the number of digits converted between [int] and
      [str] is outside the model.
    - Python [str] values are lists of ASCII characters.
    - The process-wide random generator is an explicit tape of raw draws;
      every call of the generator consumes one draw from the tape.
    - A computation ends in a value, in a raised exception, or it is still
      asking for a random draw when the tape is exhausted. *)

From Stdlib Require Import Decimal DecimalPos DecimalZ.
From Stdlib Require Import String Ascii.
From Stdlib Require Import ZArith List Bool Lia.
From Stdlib Require Import Reals Lra Permutation.
Import ListNotations.

Local Open Scope Z_scope.

(* ================================================================== *)
(** ** Python values, exceptions and built-ins used by the program *)
(* ================================================================== *)

Module Py.

(** The exceptions the modelled code can raise. *)
Inductive exn : Set :=
| ValueError
| IndexError
| ZeroDivisionError
| FileNotFoundError
| UnboundLocalError.

(** Result of running a piece of the program. [OutOfDraws] means that the
    code called the random generator after the supplied tape ran out. *)
Inductive outcome (A : Type) : Type :=
| Ok (a : A)
| Raise (e : exn)
| OutOfDraws.

Arguments Ok {A} a.
Arguments Raise {A} e.
Arguments OutOfDraws {A}.

Definition bind {A B : Type} (m : outcome A) (f : A -> outcome B) : outcome B :=
  match m with
  | Ok a => f a
  | Raise e => Raise e
  | OutOfDraws => OutOfDraws
  end.

Definition text : Type := list ascii.

Definition LF : ascii := ascii_of_nat 10.
Definition CR : ascii := ascii_of_nat 13.

(** Whitespace as recognised by [str.split], [str.strip] and [int] on
    ASCII text: TAB, LF, VT, FF, CR, the separators 0x1c-0x1f and SPACE. *)
Definition is_space (c : ascii) : bool :=
  let n := nat_of_ascii c in
  (Nat.leb 9 n && Nat.leb n 13) || (Nat.leb 28 n && Nat.leb n 31) || Nat.eqb n 32.

Fixpoint lstrip (s : text) : text :=
  match s with
  | [] => []
  | c :: s' => if is_space c then lstrip s' else s
  end.

Definition strip (s : text) : text := rev (lstrip (rev (lstrip s))).

(** [str.split()] with no argument: maximal runs of non-whitespace.
    [word] holds the characters of the token being read, last one first. *)
Fixpoint split_from (s : text) (word : text) : list text :=
  match s with
  | [] => match word with [] => [] | _ => [rev word] end
  | c :: s' =>
      if is_space c
      then match word with
           | [] => split_from s' []
           | _ => rev word :: split_from s' []
           end
      else split_from s' (c :: word)
  end.

Definition split (s : text) : list text := split_from s [].

(** Text-mode reading translates CR LF and a lone CR into LF. *)
Fixpoint universal_newlines (s : text) : text :=
  match s with
  | [] => []
  | c :: s' =>
      if Ascii.eqb c CR
      then match s' with
           | c' :: s'' =>
               if Ascii.eqb c' LF
               then LF :: universal_newlines s''
               else LF :: universal_newlines s'
           | [] => [LF]
           end
      else c :: universal_newlines s'
  end.

(** [file.readlines()]: the lines of the text, each with its terminating
    LF; a last line without LF is kept. [line] is the current line, last
    character first. *)
Fixpoint lines_from (s : text) (line : text) : list text :=
  match s with
  | [] => match line with [] => [] | _ => [rev line] end
  | c :: s' =>
      if Ascii.eqb c LF
      then rev (c :: line) :: lines_from s' []
      else lines_from s' (c :: line)
  end.

(** Files: a name is bound to the text it holds, or to nothing. *)
Definition filesystem : Type := string -> option text.

Definition readlines (fs : filesystem) (filename : string) : outcome (list text) :=
  match fs filename with
  | Some content => Ok (lines_from (universal_newlines content) [])
  | None => Raise FileNotFoundError
  end.

Definition write_file (fs : filesystem) (filename : string) (content : text)
  : filesystem :=
  fun name => if String.eqb name filename then Some content else fs name.

Definition digit_value (c : ascii) : option Z :=
  let n := nat_of_ascii c in
  if Nat.leb 48 n && Nat.leb n 57 then Some (Z.of_nat n - 48) else None.

(** Decimal digits with single underscores allowed between digits.
    [after_digit] tells whether the previous character was a digit. *)
Fixpoint int_digits (s : text) (acc : Z) (after_digit : bool) : option Z :=
  match s with
  | [] => if after_digit then Some acc else None
  | c :: s' =>
      match digit_value c with
      | Some d => int_digits s' (10 * acc + d) true
      | None =>
          if Ascii.eqb c "_"%char && after_digit
          then int_digits s' acc false
          else None
      end
  end.

(** [int(s)] for a string [s], base ten: surrounding whitespace is dropped,
    one sign is allowed. [None] stands for the ValueError. *)
Definition int (s : text) : option Z :=
  match strip s with
  | c :: s' =>
      if Ascii.eqb c "-"%char then option_map Z.opp (int_digits s' 0 false)
      else if Ascii.eqb c "+"%char then int_digits s' 0 false
      else int_digits (c :: s') 0 false
  | [] => None
  end.

Fixpoint digits_of_uint (d : uint) : text :=
  match d with
  | Nil => []
  | D0 d' => "0"%char :: digits_of_uint d'
  | D1 d' => "1"%char :: digits_of_uint d'
  | D2 d' => "2"%char :: digits_of_uint d'
  | D3 d' => "3"%char :: digits_of_uint d'
  | D4 d' => "4"%char :: digits_of_uint d'
  | D5 d' => "5"%char :: digits_of_uint d'
  | D6 d' => "6"%char :: digits_of_uint d'
  | D7 d' => "7"%char :: digits_of_uint d'
  | D8 d' => "8"%char :: digits_of_uint d'
  | D9 d' => "9"%char :: digits_of_uint d'
  end.

(** [str(i)] for an integer [i]. *)
Definition str (i : Z) : text :=
  match Z.to_int i with
  | Pos d => digits_of_uint d
  | Neg d => "-"%char :: digits_of_uint d
  end.

(** Indexing [l[i]] of a list or of one axis of an array: a negative index
    counts from the end, anything outside raises IndexError. *)
Definition index {A : Type} (l : list A) (i : Z) : outcome A :=
  let n := Z.of_nat (length l) in
  if (i <? - n) || (n <=? i) then Raise IndexError
  else match nth_error l (Z.to_nat (if i <? 0 then i + n else i)) with
       | Some a => Ok a
       | None => Raise IndexError
       end.

Definition clamp (lo hi i : Z) : Z := Z.max lo (Z.min hi i).

(** [l[start:stop]]. *)
Definition slice {A : Type} (l : list A) (start stop : Z) : list A :=
  let n := Z.of_nat (length l) in
  let a := clamp 0 n (if start <? 0 then start + n else start) in
  let b := clamp 0 n (if stop <? 0 then stop + n else stop) in
  firstn (Z.to_nat (b - a)) (skipn (Z.to_nat a) l).

(** [l[start:stop:-1]]: positions [start], [start-1], ... down to, but
    without, [stop]. *)
Definition slice_backward {A : Type} (l : list A) (start stop : Z) : list A :=
  let n := Z.of_nat (length l) in
  let a := clamp (-1) (n - 1) (if start <? 0 then start + n else start) in
  let b := clamp (-1) (n - 1) (if stop <? 0 then stop + n else stop) in
  rev (firstn (Z.to_nat (a - b)) (skipn (Z.to_nat (b + 1)) l)).

(** Comparison [a < b] of two floats. *)
Definition Rltb (a b : R) : bool := if Rlt_dec a b then true else false.

End Py.

Import Py.

Notation "x <- m ;; f" := (Py.bind m (fun x => f))
  (at level 61, m at next level, right associativity).

(* ================================================================== *)
(** ** Reading and writing routes and cities *)
(* ================================================================== *)

(** A route is the array of city indices in the order of the visits. *)
Definition Route : Type := list Z.

(** [read_route_from_file]: every line on which [int] succeeds contributes
    its number; the bare [except] drops every other line. *)
Definition read_route_from_file (fs : filesystem) (filename : string)
  : outcome Route :=
  lines <- readlines fs filename ;;
  Ok (fold_left
        (fun route line =>
           match int line with
           | Some n => route ++ [n]
           | None => route
           end)
        lines []).

(** [write_route_to_file]: the text accumulated in [writelines] becomes the
    content of the file. *)
Definition write_route_to_file (route : Route) (filename : string)
  (fs : filesystem) : filesystem :=
  let writelines :=
    fold_left (fun writelines i => writelines ++ str i ++ [LF; " "%char])
      route [] in
  write_file fs filename writelines.

Definition city : Type := (R * R)%type.

Section ReadCities.

(** Python's built-in [float] applied to a string; [None] stands for its
    ValueError. The built-in is not part of the program, so the reader is
    stated for any such function. *)
Variable float : text -> option R.

Definition float_or_raise (s : text) : outcome R :=
  match float s with
  | Some x => Ok x
  | None => Raise ValueError
  end.

(** One pass of the loop body of [read_cities_from_file]: a line without
    any token is passed over; otherwise [parts[0]] and [parts[1]] are
    converted, in this order. *)
Definition read_city_line (cities : list city) (line : text)
  : outcome (list city) :=
  let parts := split line in
  if 0 <? Z.of_nat (length parts)
  then
    p0 <- index parts 0 ;;
    x <- float_or_raise p0 ;;
    p1 <- index parts 1 ;;
    y <- float_or_raise p1 ;;
    Ok (cities ++ [(x, y)])
  else Ok cities.

Fixpoint read_city_lines (lines : list text) (cities : list city)
  : outcome (list city) :=
  match lines with
  | [] => Ok cities
  | line :: lines' =>
      cities' <- read_city_line cities line ;;
      read_city_lines lines' cities'
  end.

Definition read_cities_from_file (fs : filesystem) (filename : string)
  : outcome (list city) :=
  lines <- readlines fs filename ;;
  read_city_lines lines [].

(** What the specification asks of the loader: the pairs of the lines that
    hold two numbers, every other line being skipped. *)
Definition two_numbers (line : text) : option city :=
  match split line with
  | [p0; p1] =>
      match float p0, float p1 with
      | Some x, Some y => Some (x, y)
      | _, _ => None
      end
  | _ => None
  end.

Definition spec_read_cities (lines : list text) : list city :=
  flat_map
    (fun line => match two_numbers line with Some c => [c] | None => [] end)
    lines.

End ReadCities.

(** Python's [float] on the plain decimal literals [digits] and
    [digits.digits] with an optional sign and surrounding whitespace. The
    built-in accepts more forms (exponents, [inf], [nan], underscores); this
    function is used only to run the reader on concrete texts made of plain
    literals and of words that are no number in any form. *)
Fixpoint plain_digits (s : text) (acc : Z) (count : nat) : option (Z * nat * text) :=
  match s with
  | [] => Some (acc, count, [])
  | c :: s' =>
      match digit_value c with
      | Some d => plain_digits s' (10 * acc + d) (S count)
      | None => Some (acc, count, s)
      end
  end.

Definition unsigned_decimal (s : text) : option R :=
  match plain_digits s 0 0 with
  | Some (whole, S _, []) => Some (IZR whole)
  | Some (whole, S _, c :: s') =>
      if Ascii.eqb c "."%char
      then match plain_digits s' whole 0 with
           | Some (digits, S n, []) => Some (IZR digits / IZR (10 ^ Z.of_nat (S n)))%R
           | _ => None
           end
      else None
  | _ => None
  end.

Definition float_of_decimal (s : text) : option R :=
  match strip s with
  | c :: s' =>
      if Ascii.eqb c "-"%char then option_map Ropp (unsigned_decimal s')
      else if Ascii.eqb c "+"%char then unsigned_decimal s'
      else unsigned_decimal (c :: s')
  | [] => None
  end.

(* ================================================================== *)
(** ** Distances and trip length *)
(* ================================================================== *)

Definition matrix : Type := list (list R).

(** [np.array([[0.0] * n] * n)]: a fresh n x n array of zeros. *)
Definition zeros (n : nat) : matrix := repeat (repeat 0%R n) n.

Fixpoint set_nth {A : Type} (l : list A) (i : nat) (v : A) : list A :=
  match l, i with
  | [], _ => []
  | _ :: l', O => v :: l'
  | a :: l', S i' => a :: set_nth l' i' v
  end.

(** [m[i,j]] and [m[i,j] = v] for positions inside the array, the only ones
    the loops of [calculate_distances] touch. *)
Definition mget (m : matrix) (i j : nat) : R := nth j (nth i m []) 0%R.

Definition mset (m : matrix) (i j : nat) (v : R) : matrix :=
  set_nth m i (set_nth (nth i m []) j v).

Definition xcoord (cities : list city) (i : nat) : R := fst (nth i cities (0%R, 0%R)).
Definition ycoord (cities : list city) (i : nat) : R := snd (nth i cities (0%R, 0%R)).

(** The body of the inner loop of [calculate_distances]. *)
Definition distance_step (cities : list city) (i : nat) (distances : matrix)
  (j : nat) : matrix :=
  let dx := (xcoord cities i - xcoord cities j)%R in
  let dy := (ycoord cities i - ycoord cities j)%R in
  let distances := mset distances i j (sqrt (dx * dx + dy * dy)) in
  mset distances j i (mget distances i j).

Definition calculate_distances (cities : list city) : matrix :=
  let Ncities := length cities in
  let distances := zeros Ncities in
  fold_left
    (fun distances i =>
       fold_left (distance_step cities i) (seq 0 (length cities)) distances)
    (seq 0 (length cities)) distances.

(** [distances[a, b]] with the index checks of an array. *)
Definition matrix_at (distances : matrix) (a b : Z) : outcome R :=
  row <- index distances a ;;
  index row b.

(** The loop of [get_trip_length], started with the running sum
    [trip_length]: one step per pair of neighbours of the route. *)
Fixpoint trip_from (route : Route) (distances : matrix) (trip_length : R)
  : outcome R :=
  match route with
  | a :: ((b :: _) as rest) =>
      d <- matrix_at distances a b ;;
      trip_from rest distances (trip_length + d)%R
  | _ => Ok trip_length
  end.

Definition get_trip_length (route : Route) (distances : matrix) : outcome R :=
  trip_from route distances 0%R.

(* ================================================================== *)
(** ** The random generator *)
(* ================================================================== *)

(** In the program [random] is [numpy.random]: [randint(low, high)] draws
    from the half-open range and [random()] from the half-open unit
    interval. *)

(** The tape of raw draws still to be consumed. *)
Definition tape : Type := list Z.

(** Code that may consume draws: it is given the tape and hands back what
    is left of it. *)
Definition Rand (A : Type) : Type := tape -> outcome (A * tape).

Definition ret {A : Type} (a : A) : Rand A := fun t => Ok (a, t).

Definition bindR {A B : Type} (m : Rand A) (f : A -> Rand B) : Rand B :=
  fun t =>
    match m t with
    | Ok (a, t') => f a t'
    | Raise e => Raise e
    | OutOfDraws => OutOfDraws
    end.

Definition lift {A : Type} (m : outcome A) : Rand A :=
  fun t =>
    match m with
    | Ok a => Ok (a, t)
    | Raise e => Raise e
    | OutOfDraws => OutOfDraws
    end.

Notation "x <~ m ;; f" := (bindR m (fun x => f))
  (at level 61, m at next level, right associativity).

(** The value [random.randint(low, high)] makes of a raw draw: a number of
    the half-open range from [low] to [high]. *)
Definition randint_value (low high draw : Z) : Z := low + draw mod (high - low).

(** [random.randint(low, high)]: ValueError when the range is empty. *)
Definition randint (low high : Z) : Rand Z :=
  fun t =>
    if high <=? low then Raise ValueError
    else match t with
         | [] => OutOfDraws
         | draw :: t' => Ok (randint_value low high draw, t')
         end.

(** The value [random.random()] makes of a raw draw: 53 random bits scaled
    into the half-open unit interval. *)
Definition uniform_value (draw : Z) : R := (IZR (draw mod 2 ^ 53) / IZR (2 ^ 53))%R.

Definition random : Rand R :=
  fun t =>
    match t with
    | [] => OutOfDraws
    | draw :: t' => Ok (uniform_value draw, t')
    end.

(* ================================================================== *)
(** ** The perturbation and the annealing loop *)
(* ================================================================== *)

(** The [while True] loop of [swap_cities]: draw [city2] until it differs
    from [city1], then put the two in increasing order. Every turn consumes
    one draw, so the loop follows the tape. *)
Fixpoint choose_city2 (high city1 : Z) (t : tape) : outcome (Z * Z * tape) :=
  if high <=? 2 then Raise ValueError
  else match t with
       | [] => OutOfDraws
       | draw :: t' =>
           let city2 := randint_value 2 high draw in
           if negb (city1 =? city2)
           then if city2 <? city1
                then Ok (city2, city1, t')
                else Ok (city1, city2, t')
           else choose_city2 high city1 t'
       end.

Definition swap_cities (route : Route) : Rand Route :=
  let n := Z.of_nat (length route) in
  (* choose cities *)
  city1 <~ randint 2 (n - 1) ;;
  chosen <~ choose_city2 (n - 1) city1 ;;
  let '(city1, city2) := chosen in
  (* make new route parts *)
  let begin := slice route 0 (city1 - 1) in
  let swap := slice_backward route city2 (city1 - 2) in
  let end_ := slice route (city2 + 1) n in
  (* create new route with one part swapped *)
  let new_route := begin ++ swap in
  let new_route := new_route ++ end_ in
  ret new_route.

(** The variables of [optimize_route] that live across the trials. *)
Record state : Type := mkState {
  temperature : R;
  current_route : Route;
  current_length : R;
  best_route : Route;
  shortest_length : R
}.

(** The constant for modifying the Boltzmann probability, 0.01. *)
Definition k : R := (1 / 100)%R.

(** The exponent of the Boltzmann probability as the program writes it:
    [-dL/k*temperature]. *)
Definition boltzmann_exponent (dL temperature : R) : R :=
  (- dL / k * temperature)%R.

(** One turn of the loop of [optimize_route]. [new_route] is [None] once the
    program has deleted the variable; [route_changed] is the flag of the
    program. *)
Definition trial (distances : matrix) (dt : R) (st : state) : Rand state :=
  (* make a modification to travel route *)
  new_route <~ swap_cities (current_route st) ;;
  (* calculate the length of the new route *)
  new_length <~ lift (get_trip_length new_route distances) ;;
  (* calculate the change in route length *)
  let dL := (new_length - current_length st)%R in
  after_test <~
    (if Rltb new_length (current_length st)
     then
       (* if the new route is shorter, accept it *)
       ret (mkState (temperature st) new_route new_length
              (best_route st) (shortest_length st),
            true, Some new_route)
     else
       R <~ random ;;
       let st' :=
         if Rltb R (exp (boltzmann_exponent dL (temperature st)))
         then mkState (temperature st) new_route new_length
                (best_route st) (shortest_length st)
         else st in
       (* the flag set on acceptance is overwritten by the statement
          route_changed = False that closes the branch; del new_route *)
       ret (st', false, None)) ;;
  let '(st, route_changed, new_route) := after_test in
  (* test if the new route is the best route, and store it if it is *)
  st <~
    (if route_changed && Rltb new_length (shortest_length st)
     then match new_route with
          | Some new_route =>
              ret (mkState (temperature st) (current_route st)
                     (current_length st) new_route new_length)
          | None => lift (Raise UnboundLocalError)
          end
     else ret st) ;;
  (* change the temperature *)
  ret (mkState (temperature st + dt) (current_route st) (current_length st)
         (best_route st) (shortest_length st)).

(** [for i in range(n)] around the loop body. *)
Fixpoint run_trials (distances : matrix) (dt : R) (n : nat) (st : state)
  : Rand state :=
  match n with
  | O => ret st
  | S n' =>
      st' <~ trial distances dt st ;;
      run_trials distances dt n' st'
  end.

(** The state before the first trial. *)
Definition initial_state (route : Route) (distances : matrix)
  (initial_temperature : R) : outcome state :=
  shortest_length <- get_trip_length route distances ;;
  Ok (mkState initial_temperature route shortest_length route shortest_length).

(** Change of temperature between trials; the division raises
    ZeroDivisionError when [trials] is 1. *)
Definition temperature_step (initial_temperature : R) (trials : Z)
  (final_temperature : R) : outcome R :=
  if trials - 1 =? 0 then Raise ZeroDivisionError
  else Ok ((final_temperature - initial_temperature) / IZR (trials - 1))%R.

Definition optimize_route (route : Route) (distances : matrix)
  (initial_temperature : R) (trials : Z) (final_temperature : R)
  : Rand Route :=
  st <~ lift (initial_state route distances initial_temperature) ;;
  dt <~ lift (temperature_step initial_temperature trials final_temperature) ;;
  st <~ run_trials distances dt (Z.to_nat trials) st ;;
  ret (best_route st).

(* ================================================================== *)
(** ** The random route, the plot and the main program *)
(* ================================================================== *)

(** [x[i], x[j] = x[j], x[i]] on positions inside the array. *)
Definition exchange (x : list Z) (i j : nat) : list Z :=
  set_nth (set_nth x i (nth j x 0)) j (nth i x 0).

(** The in-place shuffle behind [random.permutation]: from position [i]
    down to position 1, the entry is exchanged with the entry at a position
    drawn at or below it. *)
Fixpoint shuffle_from (i : nat) (x : list Z) (t : tape)
  : outcome (list Z * tape) :=
  match i with
  | O => Ok (x, t)
  | S i' =>
      match t with
      | [] => OutOfDraws
      | draw :: t' =>
          let j := Z.to_nat (draw mod Z.of_nat (S i)) in
          shuffle_from i' (exchange x i j) t'
      end
  end.

(** [random.permutation(n)]: the array 0 .. n-1, shuffled. *)
Definition permutation (n : nat) : Rand (list Z) :=
  shuffle_from (n - 1) (map Z.of_nat (seq 0 n)).

(** [create_random_route]: [rand[0]] raises IndexError on an empty array. *)
Definition create_random_route (cities : list city) : Rand Route :=
  (* Create an array of random intergers as city indices. *)
  rand <~ permutation (length cities) ;;
  (* Add first city also to last place to make trip round. *)
  first <~ lift (index rand 0) ;;
  ret (rand ++ [first]).

(** The loop of [show_route]: [routeline] collects [cities[place]]. *)
Fixpoint route_line (cities : list city) (route : Route) (routeline : list city)
  : outcome (list city) :=
  match route with
  | [] => Ok routeline
  | place :: route' =>
      c <- index cities place ;;
      route_line cities route' (routeline ++ [c])
  end.

(** [show_route] up to the calls of the plotting library: the result is
    what is handed to it, the points of the cities and the line of the
    route. The column selections [cities[:,0]] and [routeline[:,0]] raise
    IndexError on an array without rows, which has one axis only. *)
Definition show_route (cities : list city) (route : Route)
  : outcome (list city * list city) :=
  routeline <- route_line cities route [] ;;
  match cities, routeline with
  | [], _ => Raise IndexError
  | _, [] => Raise IndexError
  | _, _ => Ok (cities, routeline)
  end.

(** The four calls of [optimize_route] in [main], each started from the
    route the one before returned. *)
Definition anneal_stages (route : Route) (distances : matrix) : Rand Route :=
  route <~ optimize_route route distances 100 100000 10 ;;
  route <~ optimize_route route distances 10 100000 1 ;;
  route <~ optimize_route route distances 1 100000 (1 / 10) ;;
  optimize_route route distances (1 / 10) 100000 (1 / 100).

Section MainProgram.

Variable float : text -> option R.

(** The [try] of [main]: the route of the file named by the empty string,
    and a random route when reading it raises. *)
Definition initial_route (fs : filesystem) (cities : list city) : Rand Route :=
  fun t =>
    match read_route_from_file fs "" with
    | Ok route => Ok (route, t)
    | Raise _ => create_random_route cities t
    | OutOfDraws => OutOfDraws
    end.

(** [main] without the clock, the printed lines and the window of the
    plot: the result is the route found and the files as they are left. *)
Definition main (fs : filesystem) : Rand (Route * filesystem) :=
  (* read cities from a file *)
  cities <~ lift (read_cities_from_file float fs "cities20.txt") ;;
  let distances := calculate_distances cities in
  (* Initialize the route. *)
  route <~ initial_route fs cities ;;
  (* Calculate the length of the initial route. *)
  trip_length <~ lift (get_trip_length route distances) ;;
  (* Run the optimization algorithm. *)
  route <~ anneal_stages route distances ;;
  (* Print the results *)
  printed_length <~ lift (get_trip_length route distances) ;;
  (* Plot the best route and save it. *)
  plotted <~ lift (show_route cities route) ;;
  ret (route, write_route_to_file route "best_route.txt" fs).

End MainProgram.

(* ================================================================== *)
(** ** Auxiliary notions used in the statements and proofs *)
(* ================================================================== *)

Definition all_space (s : text) : Prop := forallb is_space s = true.
Definition no_space (s : text) : Prop :=
  forallb (fun c => negb (is_space c)) s = true.

Definition no_CR (s : text) : Prop :=
  forallb (fun c => negb (Ascii.eqb c CR)) s = true.
Definition no_LF (s : text) : Prop :=
  forallb (fun c => negb (Ascii.eqb c LF)) s = true.

(** The text [write_route_to_file] builds. *)
Definition written (route : Route) : text :=
  concat (map (fun i => str i ++ [LF; " "%char]) route).

(** The body of the loop of [read_route_from_file]. *)
Definition keep_int (route : Route) (line : text) : Route :=
  match int line with
  | Some n => route ++ [n]
  | None => route
  end.

(** What [read_cities_from_file] makes of a line that has tokens: the pair
    of its first two tokens when both convert, whatever follows them. *)
Definition leading_pair (float : text -> option R) (line : text) : option city :=
  match split line with
  | p0 :: p1 :: _ =>
      match float p0, float p1 with
      | Some x, Some y => Some (x, y)
      | _, _ => None
      end
  | _ => None
  end.

(** A line without any token: empty or made of whitespace only. *)
Definition blank (line : text) : Prop := split line = [].

Definition cities_of (float : text -> option R) (lines : list text) : list city :=
  flat_map
    (fun line => match leading_pair float line with Some c => [c] | None => [] end)
    lines.

(** The content of a file given by its lines, each closed by a line feed. *)
Definition file_of_lines (lines : list string) : text :=
  concat (map (fun line => list_ascii_of_string line ++ [LF]) lines).

(** A file system that holds the one file [cities.txt]. *)
Definition only_cities_file (content : text) : filesystem :=
  write_file (fun _ => None) "cities.txt" content.

(** Two files of cities: three lines each, the middle one without any
    token in the first file and with two words that are no numbers in the
    second. *)
Definition cities_with_blank_line : text :=
  file_of_lines ["0 0"; "  "; "1 1"]%string.

Definition cities_with_malformed_line : text :=
  file_of_lines ["0 0"; "x y"; "1 1"]%string.

(** The Euclidean distance between the cities at positions [i] and [j]. *)
Definition euclidean (cities : list city) (i j : nat) : R :=
  sqrt ((xcoord cities i - xcoord cities j) ^ 2
        + (ycoord cities i - ycoord cities j) ^ 2).

(** An n x n array. *)
Definition square (n : nat) (m : matrix) : Prop :=
  length m = n /\ forall i, (i < n)%nat -> length (nth i m []) = n.

(** The entries of [m] marked by [done] hold the Euclidean distances: the
    invariant of the loops of [calculate_distances]. *)
Definition filled (cities : list city) (done : nat -> nat -> Prop) (m : matrix)
  : Prop :=
  square (length cities) m /\
  forall a b, (a < length cities)%nat -> (b < length cities)%nat -> done a b ->
              mget m a b = euclidean cities a b.

(** The elements of [l] at the positions from [lo] on and before [hi]. *)
Definition positions {A : Type} (l : list A) (lo hi : Z) : list A :=
  firstn (Z.to_nat (hi - lo)) (skipn (Z.to_nat lo) l).

(** The route with the positions from [city1 - 1] to [city2] read backward:
    the unchanged prefix before [city1 - 1], the reversed segment, the
    unchanged suffix after [city2]. *)
Definition reverse_between (route : Route) (city1 city2 : Z) : Route :=
  positions route 0 (city1 - 1)
  ++ rev (positions route (city1 - 1) (city2 + 1))
  ++ positions route (city2 + 1) (Z.of_nat (length route)).

(** A tour of N cities: N + 1 indices, the first one repeated at the end,
    the first N a permutation of 0 .. N-1. *)
Definition valid_tour (N : nat) (route : Route) : Prop :=
  length route = S N
  /\ hd 0 route = last route 0
  /\ Permutation (firstn N route) (map Z.of_nat (seq 0 N)).

(** The states of the loop of [optimize_route]: the state before the first
    trial and every state a trial leaves, whatever the draws. *)
Inductive reachable (route : Route) (distances : matrix)
  (initial_temperature dt : R) : state -> Prop :=
| reachable_initial (st : state) :
    initial_state route distances initial_temperature = Ok st ->
    reachable route distances initial_temperature dt st
| reachable_trial (st st' : state) (t t' : tape) :
    reachable route distances initial_temperature dt st ->
    trial distances dt st t = Ok (st', t') ->
    reachable route distances initial_temperature dt st'.

(** A tour of five cities and a state of the loop that holds it as current
    and best route, for a matrix in which every distance is zero. *)
Definition five_cities_tour : Route := [0; 1; 2; 3; 4; 0].

Definition five_zero_edges : R := (0 + 0 + 0 + 0 + 0 + 0)%R.

Definition five_cities_state : state :=
  mkState 50 five_cities_tour five_zero_edges five_cities_tour five_zero_edges.

(** The state after a trial that accepts the candidate 0,3,2,1,4,0. *)
Definition five_cities_after_trial (dt : R) : state :=
  mkState (50 + dt) [0; 3; 2; 1; 4; 0] five_zero_edges
    five_cities_tour five_zero_edges.

(** The state after a second trial that accepts the first tour again. *)
Definition five_cities_after_two_trials (dt : R) : state :=
  mkState (50 + dt + dt) five_cities_tour five_zero_edges
    five_cities_tour five_zero_edges.

(** A tape that serves [n] trials on a tour of at least four cities: for
    each trial the draws 0, 0, 1 (a first position, a repetition of it,
    another position), and one more draw for a last sample. *)
Fixpoint ample (n : nat) : tape :=
  match n with
  | O => [0]
  | S n' => 0 :: 0 :: 1 :: ample n'
  end.

(** The best route is a measured route no longer than [bound]. *)
Definition best_within (distances : matrix) (bound : R) (st : state) : Prop :=
  get_trip_length (best_route st) distances = Ok (shortest_length st)
  /\ (shortest_length st <= bound)%R.

(** An index that an axis of [N] entries accepts, counting from the front
    or, when negative, from the end. *)
Definition in_bounds (N : nat) (a : Z) : Prop :=
  - Z.of_nat N <= a < Z.of_nat N.

(** The position such an index stands for. *)
Definition wrap (N : nat) (a : Z) : nat :=
  Z.to_nat (if a <? 0 then a + Z.of_nat N else a).

(** The sum [get_trip_length] builds: the edges between neighbours of the
    route, added from the left to the running sum. *)
Fixpoint edge_sum (N : nat) (distances : matrix) (route : Route) (sum : R) : R :=
  match route with
  | a :: ((b :: _) as rest) =>
      edge_sum N distances rest (sum + mget distances (wrap N a) (wrap N b))
  | _ => sum
  end.

(** [r] visits the cities of [route]: the same entries in some order, the
    same first and the same last entry. *)
Definition same_cities (route r : Route) : Prop :=
  Permutation r route /\ hd 0 r = hd 0 route /\ last r 0 = last route 0.


(** Blanks and tabs. *)
Definition blanks (s : text) : Prop :=
  forallb (fun c => Ascii.eqb c " "%char || Ascii.eqb c (ascii_of_nat 9)) s
  = true.

(** A line of a route file written by hand: blanks, the number, blanks, and
    a line end in the convention of either system. *)
Definition padded_line (entry : text * Z * text * bool) : text :=
  let '(before, n, after, crlf) := entry in
  before ++ str n ++ after ++ (if crlf then [CR; LF] else [LF]).

Definition padded_number (entry : text * Z * text * bool) : Z :=
  let '(_, n, _, _) := entry in n.

Definition padded_blanks (entry : text * Z * text * bool) : Prop :=
  let '(before, _, after, _) := entry in blanks before /\ blanks after.

(** The city a place of a route stands for. *)
Definition city_at (cities : list city) (place : Z) : city :=
  nth (wrap (length cities) place) cities (0, 0)%R.

(** A tape that serves [n] trials on a tour of at least four cities and
    leaves a tape with the property [Q]: each trial finds the draw 0 of a
    first position, draws that repeat it, the draw 1 of another position
    and a draw for the sample, which the trial may leave on the tape. *)
Fixpoint serves (n : nat) (Q : tape -> Prop) (t : tape) : Prop :=
  match n with
  | O => Q t
  | S n' =>
      exists same d rest,
        t = 0 :: same ++ 1 :: d :: rest
        /\ Forall (fun z => z = 0) same
        /\ serves n' Q (d :: rest)
        /\ serves n' Q rest
  end.

(** The trial count of every stage of [main]. *)
Definition stage_trials : nat := Z.to_nat 100000.

(** A tape for the four stages of [main]. *)
Definition stages_tape : tape :=
  ample (stage_trials + (stage_trials + (stage_trials + (stage_trials + 0)))).

(** A tape for [main] on [N] cities: the draws of the random route, then
    the tape of the four stages. *)
Definition main_tape (N : nat) : tape := repeat 0 (N - 1) ++ stages_tape.

(** The file [cities20.txt] with the four corners of the unit square. *)
Definition unit_square_file : filesystem :=
  write_file (fun _ => None) "cities20.txt"
    (file_of_lines ["0 0"; "0 1"; "1 1"; "1 0"]%string).

(* ================================================================== *)
(** * Properties *)
(* ================================================================== *)

(** ** Text: stripping, digits and lines *)

Section TextFacts.

Lemma lstrip_spaces_app (pre s : text) :
  all_space pre -> lstrip (pre ++ s) = lstrip s.
Proof.
  unfold all_space. induction pre as [|c pre IH]; simpl; [reflexivity|].
  intros H. apply andb_true_iff in H as [Hc Hpre]. rewrite Hc. now apply IH.
Qed.

Lemma lstrip_all_space (s : text) : all_space s -> lstrip s = [].
Proof.
  intros H. rewrite <- (app_nil_r s). rewrite lstrip_spaces_app by exact H.
  reflexivity.
Qed.

Lemma lstrip_no_space_app (core s : text) :
  core <> [] -> no_space core -> lstrip (core ++ s) = core ++ s.
Proof.
  unfold no_space. destruct core as [|c core]; [congruence|]. simpl.
  intros _ H. apply andb_true_iff in H as [Hc _].
  apply negb_true_iff in Hc. now rewrite Hc.
Qed.

Lemma all_space_rev (s : text) : all_space s -> all_space (rev s).
Proof.
  unfold all_space. rewrite !forallb_forall. intros H c Hc.
  apply H. now apply in_rev.
Qed.

Lemma no_space_rev (s : text) : no_space s -> no_space (rev s).
Proof.
  unfold no_space. rewrite !forallb_forall. intros H c Hc.
  apply H. now apply in_rev.
Qed.

Lemma strip_padded (pre core post : text) :
  all_space pre -> all_space post -> core <> [] -> no_space core ->
  strip (pre ++ core ++ post) = core.
Proof.
  intros Hpre Hpost Hne Hcore. unfold strip.
  rewrite lstrip_spaces_app by exact Hpre.
  rewrite lstrip_no_space_app by assumption.
  rewrite rev_app_distr.
  rewrite lstrip_spaces_app by now apply all_space_rev.
  rewrite <- (app_nil_r (rev core)).
  rewrite lstrip_no_space_app.
  - rewrite app_nil_r. apply rev_involutive.
  - intros E. apply Hne. apply (f_equal (@rev ascii)) in E.
    now rewrite rev_involutive in E.
  - now apply no_space_rev.
Qed.

Lemma strip_all_space (s : text) : all_space s -> strip s = [].
Proof.
  intros H. unfold strip. now rewrite (lstrip_all_space s H).
Qed.

Lemma digits_no_space (d : uint) : no_space (digits_of_uint d).
Proof.
  unfold no_space. induction d; simpl; auto.
Qed.

Lemma digits_nonempty (d : uint) : d <> Nil -> digits_of_uint d <> [].
Proof.
  destruct d; simpl; congruence.
Qed.

(** Reading the digits of [d] after an accumulator that already holds the
    digits [e] (least significant first) gives the number whose digits are
    those of [e] followed by those of [d]. *)
Lemma int_digits_of_uint (d e : uint) (after_digit : bool) :
  d <> Nil \/ after_digit = true ->
  int_digits (digits_of_uint d) (Z.of_N (Unsigned.of_lu e)) after_digit
  = Some (Z.of_N (Unsigned.of_lu (revapp d e))).
Proof.
  revert e after_digit.
  induction d as [|d IH|d IH|d IH|d IH|d IH|d IH|d IH|d IH|d IH|d IH];
    intros e b Hb;
    [ destruct Hb as [Hb|Hb]; [congruence|]; subst b; reflexivity
    | cbn [digits_of_uint int_digits revapp];
      match goal with
      | |- context [digit_value ?c] =>
          let v := eval vm_compute in (digit_value c) in
          change (digit_value c) with v
      end;
      cbv iota;
      match goal with
      | |- int_digits _ ?acc true = Some (Z.of_N (Unsigned.of_lu (revapp d ?e'))) =>
          replace acc with (Z.of_N (Unsigned.of_lu e'))
            by (cbn [Unsigned.of_lu];
                rewrite ?N2Z.inj_add, ?N2Z.inj_mul; simpl Z.of_N; lia)
      end;
      apply IH; now right .. ].
Qed.

Lemma int_digits_to_uint (p : positive) :
  int_digits (digits_of_uint (Pos.to_uint p)) 0 false = Some (Z.pos p).
Proof.
  change 0 with (Z.of_N (Unsigned.of_lu Nil)).
  rewrite int_digits_of_uint by (left; apply Unsigned.to_uint_nonnil).
  change (revapp (Pos.to_uint p) Nil) with (Decimal.rev (Pos.to_uint p)).
  rewrite <- Unsigned.of_uint_alt, Unsigned.of_to. reflexivity.
Qed.

End TextFacts.

(** ** Routes written to a file and read back *)

Section RouteFiles.

Lemma str_no_space (i : Z) : no_space (str i).
Proof.
  unfold str. destruct (Z.to_int i) as [d|d].
  - apply digits_no_space.
  - unfold no_space. simpl. apply digits_no_space.
Qed.

Lemma str_nonempty (i : Z) : str i <> [].
Proof.
  unfold str. destruct i as [|p|p]; simpl.
  - discriminate.
  - apply digits_nonempty, Unsigned.to_uint_nonnil.
  - discriminate.
Qed.

Lemma int_of_str (i : Z) : int_digits (str i) 0 false = Some i \/
  exists p, i = Z.neg p /\ str i = "-"%char :: digits_of_uint (Pos.to_uint p).
Proof.
  destruct i as [|p|p].
  - left. reflexivity.
  - left. apply int_digits_to_uint.
  - right. exists p. split; reflexivity.
Qed.

(** [int] recovers the number from its decimal text, whatever whitespace
    surrounds it. *)
Lemma int_str_padded (pre post : text) (i : Z) :
  all_space pre -> all_space post -> int (pre ++ str i ++ post) = Some i.
Proof.
  intros Hpre Hpost. unfold int.
  rewrite strip_padded;
    [| assumption | assumption | apply str_nonempty | apply str_no_space].
  destruct i as [|p|p].
  - reflexivity.
  - pose proof (int_digits_to_uint p) as Hd. unfold str. simpl Z.to_int.
    cbv iota. pose proof (Unsigned.to_uint_nonnil p) as Hn.
    destruct (Pos.to_uint p); try congruence; exact Hd.
  - unfold str. simpl Z.to_int. cbv iota.
    change (Ascii.eqb "-" "-") with true. cbv iota.
    rewrite int_digits_to_uint. reflexivity.
Qed.

Lemma int_all_space (s : text) : all_space s -> int s = None.
Proof.
  intros H. unfold int. now rewrite strip_all_space.
Qed.

Lemma no_space_no_CR (s : text) : no_space s -> no_CR s.
Proof.
  unfold no_space, no_CR. rewrite !forallb_forall. intros H c Hc.
  specialize (H c Hc). destruct (Ascii.eqb_spec c CR) as [->|]; [|reflexivity].
  discriminate H.
Qed.

Lemma no_space_no_LF (s : text) : no_space s -> no_LF s.
Proof.
  unfold no_space, no_LF. rewrite !forallb_forall. intros H c Hc.
  specialize (H c Hc). destruct (Ascii.eqb_spec c LF) as [->|]; [|reflexivity].
  discriminate H.
Qed.

Lemma universal_newlines_no_CR (s : text) :
  no_CR s -> universal_newlines s = s.
Proof.
  unfold no_CR. induction s as [|c s IH]; [reflexivity|].
  intros H. apply andb_true_iff in H as [Hc Hs].
  apply negb_true_iff in Hc. cbn [universal_newlines]. rewrite Hc.
  now rewrite IH.
Qed.

Lemma lines_from_first_line (body rest line : text) :
  no_LF body ->
  lines_from (body ++ LF :: rest) line
  = (rev line ++ body ++ [LF]) :: lines_from rest [].
Proof.
  unfold no_LF. revert line. induction body as [|c body IH]; intros line H.
  - reflexivity.
  - apply andb_true_iff in H as [Hc Hb]. apply negb_true_iff in Hc.
    cbn [app lines_from]. rewrite Hc. rewrite IH by exact Hb.
    cbn [rev]. now rewrite <- app_assoc.
Qed.

Lemma writelines_written (route : Route) (writelines : text) :
  fold_left (fun writelines i => writelines ++ str i ++ [LF; " "%char])
    route writelines
  = writelines ++ written route.
Proof.
  revert writelines. induction route as [|i route IH]; intros w.
  - now rewrite app_nil_r.
  - cbn [fold_left]. rewrite IH. unfold written. cbn [map concat].
    now rewrite <- !app_assoc.
Qed.

Lemma written_no_CR (route : Route) : no_CR (written route).
Proof.
  unfold no_CR, written. induction route as [|i route IH]; [reflexivity|].
  cbn [map concat]. rewrite !forallb_app, IH.
  rewrite (no_space_no_CR _ (str_no_space i)). reflexivity.
Qed.

(** Reading the lines of a written route: [pre] is the stray space left in
    front of the current line by the previous one, if any. *)
Lemma read_written (route : Route) (pre : text) (acc : Route) :
  pre = [] \/ pre = [" "%char] ->
  fold_left keep_int (lines_from (written route) (rev pre)) acc = acc ++ route.
Proof.
  revert pre acc. induction route as [|i route IH]; intros pre acc Hpre.
  - destruct Hpre as [-> | ->]; cbn; now rewrite app_nil_r.
  - unfold written. cbn [map concat]. fold (written route).
    rewrite <- app_assoc. cbn [app].
    rewrite lines_from_first_line by apply no_space_no_LF, str_no_space.
    rewrite rev_involutive. cbn [fold_left].
    unfold keep_int at 2.
    rewrite int_str_padded;
      [| destruct Hpre as [-> | ->]; reflexivity | reflexivity].
    change (lines_from (" "%char :: written route) [])
      with (lines_from (written route) (rev [" "%char])).
    rewrite IH by now right. now rewrite <- app_assoc.
Qed.

End RouteFiles.

(** The format of the written file, on the route 3, -1: one number per
    line, and a space left after every line feed. *)
Lemma written_format :
  written [3; -1]
  = ["3"; LF; " "; "-"; "1"; LF; " "]%char.
Proof. reflexivity. Qed.

(** C10. Round trip of a route through the output format: for every integer
    sequence [route], every file name and every state of the files, reading
    with [read_route_from_file] the file that [write_route_to_file] has just
    written (one integer per line, each line break followed by a stray
    space) yields exactly [route]. *)
Theorem read_route_of_written_route (route : Route) (filename : string)
  (fs : filesystem) :
  read_route_from_file (write_route_to_file route filename fs) filename
  = Ok route.
Proof.
  unfold read_route_from_file, write_route_to_file, readlines, write_file.
  rewrite String.eqb_refl. cbn [bind].
  rewrite writelines_written. cbn [app].
  rewrite universal_newlines_no_CR by apply written_no_CR.
  change (lines_from (written route) []) with (lines_from (written route) (rev [])).
  exact (f_equal Ok (read_written route [] [] (or_introl eq_refl))).
Qed.

(** ** The reader of cities *)

Section ReadCitiesFacts.

Variable float : text -> option R.

Lemma index_0 (A : Type) (a : A) (l : list A) : index (a :: l) 0 = Ok a.
Proof.
  unfold index. cbn [length].
  rewrite (proj2 (Z.ltb_ge _ _)), (proj2 (Z.leb_gt _ _)) by lia.
  reflexivity.
Qed.

Lemma index_1 (A : Type) (a b : A) (l : list A) : index (a :: b :: l) 1 = Ok b.
Proof.
  unfold index. cbn [length].
  rewrite (proj2 (Z.ltb_ge _ _)), (proj2 (Z.leb_gt _ _)) by lia.
  reflexivity.
Qed.

Lemma index_1_single (A : Type) (a : A) : index [a] 1 = Raise IndexError.
Proof. reflexivity. Qed.

Lemma read_city_line_blank (cities : list city) (line : text) :
  blank line -> read_city_line float cities line = Ok cities.
Proof.
  unfold blank, read_city_line. intros ->. reflexivity.
Qed.

Lemma read_city_line_pair (cities : list city) (line : text) (c : city) :
  leading_pair float line = Some c ->
  read_city_line float cities line = Ok (cities ++ [c]).
Proof.
  unfold leading_pair, read_city_line, float_or_raise.
  destruct (split line) as [|p0 [|p1 rest]]; try discriminate.
  destruct (float p0) as [x|] eqn:E0; try discriminate.
  destruct (float p1) as [y|] eqn:E1; try discriminate.
  intros [= <-].
  replace (0 <? Z.of_nat (length (p0 :: p1 :: rest))) with true
    by (symmetry; apply Z.ltb_lt; cbn [length]; lia).
  rewrite index_0, index_1. cbn [bind]. rewrite E0, E1. reflexivity.
Qed.

Lemma read_city_line_malformed (cities : list city) (line : text) :
  ~ blank line -> leading_pair float line = None ->
  exists e, read_city_line float cities line = Raise e
            /\ (e = ValueError \/ e = IndexError).
Proof.
  unfold blank, leading_pair, read_city_line, float_or_raise.
  destruct (split line) as [|p0 [|p1 rest]]; [congruence| |]; intros _ H.
  - rewrite index_0. cbn [length Z.of_nat bind]. cbn [Z.ltb Z.compare Pos.of_succ_nat].
    destruct (float p0); cbn [bind]; [rewrite index_1_single|]; cbn [bind]; eauto.
  - replace (0 <? Z.of_nat (length (p0 :: p1 :: rest))) with true
      by (symmetry; apply Z.ltb_lt; cbn [length]; lia).
    rewrite index_0, index_1. cbn [bind].
    destruct (float p0); cbn [bind]; [|eauto].
    destruct (float p1); cbn [bind]; [discriminate|eauto].
Qed.

Lemma read_city_lines_ok (lines : list text) (cities : list city) :
  Forall (fun line => blank line \/ leading_pair float line <> None) lines ->
  read_city_lines float lines cities = Ok (cities ++ cities_of float lines).
Proof.
  revert cities. induction lines as [|line lines IH]; intros cities H.
  - cbn. now rewrite app_nil_r.
  - inversion H as [|? ? Hline Hrest]; subst. cbn [read_city_lines].
    unfold cities_of. cbn [flat_map]. fold (cities_of float lines).
    destruct (leading_pair float line) as [c|] eqn:E.
    + rewrite (read_city_line_pair _ _ _ E). cbn [bind].
      rewrite IH by assumption. now rewrite <- app_assoc.
    + destruct Hline as [Hb|Hp]; [|congruence].
      rewrite (read_city_line_blank _ _ Hb). cbn [bind app].
      now apply IH.
Qed.

Lemma read_city_lines_raise (lines : list text) (cities : list city) :
  Exists (fun line => ~ blank line /\ leading_pair float line = None) lines ->
  exists e, read_city_lines float lines cities = Raise e
            /\ (e = ValueError \/ e = IndexError).
Proof.
  revert cities. induction lines as [|line lines IH]; intros cities H.
  - inversion H.
  - cbn [read_city_lines].
    destruct (leading_pair float line) as [c|] eqn:E.
    + rewrite (read_city_line_pair _ _ _ E). cbn [bind]. apply IH.
      inversion H as [? ? [_ Hn]|]; subst; [congruence|assumption].
    + destruct (split line) as [|p0 parts] eqn:Es.
      * rewrite (read_city_line_blank _ _ Es). cbn [bind]. apply IH.
        inversion H as [? ? [Hn _]|]; subst; [contradiction|assumption].
      * destruct (read_city_line_malformed cities line) as (e & He & Hk).
        -- unfold blank. congruence.
        -- exact E.
        -- exists e. rewrite He. cbn [bind]. now split.
Qed.

End ReadCitiesFacts.

(** C3 (amended). [read_cities_from_file] passes over the lines without any
    token and only those. When every line of the file is blank or starts
    with two tokens that [float] converts, the result is exactly the list of
    the (x, y) pairs of the non-blank lines, in order. When some line has a
    token but does not start with two convertible tokens, the call does not
    skip it: it raises ValueError or IndexError. *)
Theorem read_cities_skips_blank_lines_only
  (float : text -> option R) (fs : filesystem) (filename : string)
  (lines : list text) :
  readlines fs filename = Ok lines ->
  (Forall (fun line => blank line \/ leading_pair float line <> None) lines ->
   read_cities_from_file float fs filename = Ok (cities_of float lines))
  /\
  (Exists (fun line => ~ blank line /\ leading_pair float line = None) lines ->
   exists e, read_cities_from_file float fs filename = Raise e
             /\ (e = ValueError \/ e = IndexError)).
Proof.
  intros Hread. unfold read_cities_from_file. rewrite Hread. cbn [bind].
  split; intros H.
  - now rewrite read_city_lines_ok.
  - now apply read_city_lines_raise.
Qed.

(** A file with one blank line and two valid lines yields exactly the two
    cities; a file whose middle line is malformed raises. *)
Lemma read_cities_skips_blank_lines_only_witness :
  read_cities_from_file float_of_decimal
    (only_cities_file cities_with_blank_line) "cities.txt"
  = Ok [(IZR 0, IZR 0); (IZR 1, IZR 1)]
  /\
  exists e,
    read_cities_from_file float_of_decimal
      (only_cities_file cities_with_malformed_line) "cities.txt"
    = Raise e /\ (e = ValueError \/ e = IndexError).
Proof.
  split.
  - apply (proj1 (read_cities_skips_blank_lines_only float_of_decimal
                    (only_cities_file cities_with_blank_line) "cities.txt"
                    (map (fun l => list_ascii_of_string l ++ [LF])
                       ["0 0"; "  "; "1 1"]%string)
                    eq_refl)).
    cbn [map]. apply Forall_cons; [|apply Forall_cons; [|apply Forall_cons]].
    + right. intro H. vm_compute in H. discriminate H.
    + left. reflexivity.
    + right. intro H. vm_compute in H. discriminate H.
    + apply Forall_nil.
  - apply (proj2 (read_cities_skips_blank_lines_only float_of_decimal
                    (only_cities_file cities_with_malformed_line) "cities.txt"
                    (map (fun l => list_ascii_of_string l ++ [LF])
                       ["0 0"; "x y"; "1 1"]%string)
                    eq_refl)).
    cbn [map]. apply Exists_cons_tl, Exists_cons_hd. cbv beta. split.
    + intro H. vm_compute in H. discriminate H.
    + reflexivity.
Defined.

(** C3 as stated fails: on a file with one malformed line between two valid
    lines the loader raises ValueError, where the specification asks for
    the two cities of the valid lines. *)
Lemma read_cities_malformed_line_raises :
  read_cities_from_file float_of_decimal
    (only_cities_file cities_with_malformed_line) "cities.txt"
  = Raise ValueError
  /\
  spec_read_cities float_of_decimal
    (lines_from (universal_newlines cities_with_malformed_line) [])
  = [(IZR 0, IZR 0); (IZR 1, IZR 1)].
Proof.
  split; reflexivity.
Qed.

(** The failure does not depend on how [float] reads numbers: a line with a
    single token raises under every [float]. *)
Lemma read_cities_single_token_raises (float : text -> option R) :
  exists e,
    read_cities_from_file float
      (only_cities_file (file_of_lines ["0 0"; "7"; "1 1"]%string)) "cities.txt"
    = Raise e /\ (e = ValueError \/ e = IndexError).
Proof.
  unfold read_cities_from_file.
  change (readlines (only_cities_file (file_of_lines ["0 0"; "7"; "1 1"]%string))
            "cities.txt")
    with (Ok (map (fun l => list_ascii_of_string l ++ [LF])
                ["0 0"; "7"; "1 1"]%string)).
  cbn [bind map]. apply read_city_lines_raise.
  destruct (leading_pair float (list_ascii_of_string "0 0" ++ [LF])) eqn:E.
  - apply Exists_cons_tl, Exists_cons_hd. cbv beta. split.
    + intro H. vm_compute in H. discriminate H.
    + reflexivity.
  - apply Exists_cons_hd. cbv beta. split.
    + intro H. vm_compute in H. discriminate H.
    + exact E.
Qed.

(** ** The matrix of distances *)

Section Distances.

Lemma length_set_nth (A : Type) (l : list A) (i : nat) (v : A) :
  length (set_nth l i v) = length l.
Proof.
  revert i. induction l as [|a l IH]; intros [|i]; cbn; auto.
Qed.

Lemma nth_set_nth_same (A : Type) (l : list A) (i : nat) (v d : A) :
  (i < length l)%nat -> nth i (set_nth l i v) d = v.
Proof.
  revert i. induction l as [|a l IH]; intros [|i]; cbn; intros H;
    try lia; auto. apply IH. lia.
Qed.

Lemma nth_set_nth_other (A : Type) (l : list A) (i i' : nat) (v d : A) :
  i' <> i -> nth i' (set_nth l i v) d = nth i' l d.
Proof.
  revert i i'. induction l as [|a l IH]; intros [|i] [|i'] H; cbn;
    try congruence; auto.
Qed.

Lemma square_mset (n : nat) (m : matrix) (i j : nat) (v : R) :
  square n m -> square n (mset m i j v).
Proof.
  intros [Hrows Hcols]. unfold mset. split.
  - now rewrite length_set_nth.
  - intros a Ha. destruct (Nat.eq_dec a i) as [->|Hne].
    + rewrite nth_set_nth_same by lia. rewrite length_set_nth. now apply Hcols.
    + rewrite nth_set_nth_other by exact Hne. now apply Hcols.
Qed.

Lemma mget_mset_same (n : nat) (m : matrix) (i j : nat) (v : R) :
  square n m -> (i < n)%nat -> (j < n)%nat -> mget (mset m i j v) i j = v.
Proof.
  intros [Hrows Hcols] Hi Hj. unfold mget, mset.
  rewrite nth_set_nth_same by lia. apply nth_set_nth_same.
  rewrite Hcols; assumption.
Qed.

Lemma mget_mset_other (n : nat) (m : matrix) (i j a b : nat) (v : R) :
  square n m -> (i < n)%nat -> (a, b) <> (i, j) ->
  mget (mset m i j v) a b = mget m a b.
Proof.
  intros [Hrows Hcols] Hi Hne. unfold mget, mset.
  destruct (Nat.eq_dec a i) as [->|Ha].
  - rewrite nth_set_nth_same by lia. apply nth_set_nth_other. congruence.
  - now rewrite nth_set_nth_other.
Qed.

Lemma square_zeros (n : nat) : square n (zeros n).
Proof.
  unfold zeros. split.
  - apply repeat_length.
  - intros i Hi. rewrite nth_repeat_lt by exact Hi. apply repeat_length.
Qed.

Lemma euclidean_sym (cities : list city) (i j : nat) :
  euclidean cities i j = euclidean cities j i.
Proof.
  unfold euclidean. f_equal. ring.
Qed.

Lemma euclidean_diag (cities : list city) (i : nat) : euclidean cities i i = 0%R.
Proof.
  unfold euclidean.
  replace ((xcoord cities i - xcoord cities i) ^ 2
           + (ycoord cities i - ycoord cities i) ^ 2)%R with 0%R by ring.
  apply sqrt_0.
Qed.

Variable cities : list city.

Let n : nat := length cities.

Lemma distance_step_filled (done : nat -> nat -> Prop) (m : matrix) (i j : nat) :
  (i < n)%nat -> (j < n)%nat -> filled cities done m ->
  filled cities (fun a b => done a b \/ (a = i /\ b = j))
    (distance_step cities i m j).
Proof.
  intros Hi Hj [Hsq Hdone]. unfold distance_step.
  set (d := sqrt _).
  assert (Hd : d = euclidean cities i j).
  { unfold d, euclidean. f_equal. ring. }
  pose proof (square_mset n m i j d Hsq) as Hsq1.
  split; [now apply square_mset|].
  intros a b Ha Hb Hab.
  rewrite (mget_mset_same n m i j d) by assumption.
  destruct (Nat.eq_dec a j) as [->|Haj];
    [destruct (Nat.eq_dec b i) as [->|Hbi]|].
  - rewrite (mget_mset_same n) by assumption.
    rewrite Hd. apply euclidean_sym.
  - rewrite (mget_mset_other n) by (try assumption; congruence).
    destruct (Nat.eq_dec j i) as [->|Hji].
    + destruct Hab as [Hab|[_ ->]].
      * rewrite (mget_mset_other n) by (try assumption; congruence).
        now apply Hdone.
      * congruence.
    + destruct Hab as [Hab|[-> _]]; [|congruence].
      rewrite (mget_mset_other n) by (try assumption; congruence).
      now apply Hdone.
  - rewrite (mget_mset_other n) by (try assumption; congruence).
    destruct (Nat.eq_dec a i) as [->|Hai];
      [destruct (Nat.eq_dec b j) as [->|Hbj]|].
    + now rewrite (mget_mset_same n).
    + rewrite (mget_mset_other n) by (try assumption; congruence).
      destruct Hab as [Hab|[_ ->]]; [now apply Hdone|congruence].
    + rewrite (mget_mset_other n) by (try assumption; congruence).
      destruct Hab as [Hab|[-> _]]; [now apply Hdone|congruence].
Qed.

Lemma inner_loop_filled (js : list nat) (done : nat -> nat -> Prop)
  (m : matrix) (i : nat) :
  (i < n)%nat -> Forall (fun j => (j < n)%nat) js -> filled cities done m ->
  filled cities (fun a b => done a b \/ (a = i /\ In b js))
    (fold_left (distance_step cities i) js m).
Proof.
  intros Hi. revert done m. induction js as [|j js IH]; intros done m Hjs Hm.
  - cbn. destruct Hm as [Hsq Hdone]. split; [assumption|].
    intros a b Ha Hb [H|[_ []]]. now apply Hdone.
  - inversion Hjs as [|? ? Hj Hjs']; subst. cbn [fold_left].
    pose proof (distance_step_filled done m i j Hi Hj Hm) as Hstep.
    destruct (IH _ _ Hjs' Hstep) as [Hsq Hdone]. split; [assumption|].
    intros a b Ha Hb Hab. apply Hdone; try assumption.
    destruct Hab as [H|[-> [<-|H]]]; auto.
Qed.

Lemma outer_loop_filled (rows js : list nat) (done : nat -> nat -> Prop)
  (m : matrix) :
  Forall (fun i => (i < n)%nat) rows -> Forall (fun j => (j < n)%nat) js ->
  filled cities done m ->
  filled cities (fun a b => done a b \/ (In a rows /\ In b js))
    (fold_left (fun distances i => fold_left (distance_step cities i) js distances)
       rows m).
Proof.
  revert done m. induction rows as [|i rows IH]; intros done m Hrows Hjs Hm.
  - cbn. destruct Hm as [Hsq Hdone]. split; [assumption|].
    intros a b Ha Hb [H|[[] _]]. now apply Hdone.
  - inversion Hrows as [|? ? Hi Hrows']; subst. cbn [fold_left].
    pose proof (inner_loop_filled js done m i Hi Hjs Hm) as Hrow.
    destruct (IH _ _ Hrows' Hjs Hrow) as [Hsq Hdone]. split; [assumption|].
    intros a b Ha Hb Hab. apply Hdone; try assumption.
    destruct Hab as [H|[[<-|H] Hb']]; auto.
Qed.

Lemma calculate_distances_filled :
  filled cities (fun _ _ => True) (calculate_distances cities).
Proof.
  assert (Hseq : Forall (fun i => (i < n)%nat) (seq 0 n)).
  { apply Forall_forall. intros i Hin. apply in_seq in Hin. lia. }
  assert (H0 : filled cities (fun _ _ => False) (zeros n)).
  { split; [apply square_zeros|]. intros a b _ _ []. }
  destruct (outer_loop_filled (seq 0 n) (seq 0 n) _ _ Hseq Hseq H0)
    as [Hsq Hdone].
  split; [exact Hsq|]. intros a b Ha Hb _.
  apply Hdone; try assumption. right. split; apply in_seq; lia.
Qed.

End Distances.

(** C9. For every ordered sequence of N cities, [calculate_distances]
    returns an N x N matrix whose entry (i,j) is the Euclidean distance
    sqrt((xi-xj)^2+(yi-yj)^2); the matrix is symmetric, its diagonal is
    zero, and no city gives the empty matrix. *)
Theorem calculate_distances_euclidean (cities : list city) :
  square (length cities) (calculate_distances cities)
  /\
  (forall i j, (i < length cities)%nat -> (j < length cities)%nat ->
     mget (calculate_distances cities) i j
     = sqrt ((xcoord cities i - xcoord cities j) ^ 2
             + (ycoord cities i - ycoord cities j) ^ 2)
     /\ mget (calculate_distances cities) i j
        = mget (calculate_distances cities) j i
     /\ mget (calculate_distances cities) i i = 0%R)
  /\
  (length cities = 0%nat -> calculate_distances cities = []).
Proof.
  destruct (calculate_distances_filled cities) as [Hsq Hdist].
  split; [exact Hsq|]. split.
  - intros i j Hi Hj. rewrite !Hdist by auto. repeat split.
    + apply euclidean_sym.
    + apply euclidean_diag.
  - intros H0. destruct Hsq as [Hlen _]. rewrite H0 in Hlen.
    now apply length_zero_iff_nil.
Qed.

(** Two cities at (0,0) and (3,4): the entry (0,1) of the matrix is the
    distance 5 between them. *)
Lemma calculate_distances_euclidean_witness :
  mget (calculate_distances [(0, 0); (3, 4)]%R) 0 1 = 5%R.
Proof.
  destruct (calculate_distances_euclidean [(0, 0); (3, 4)]%R)
    as (_ & Hentry & _).
  destruct (Hentry 0%nat 1%nat) as (H & _ & _); [cbn; lia | cbn; lia |].
  rewrite H. unfold xcoord, ycoord. cbn [nth fst snd].
  replace ((0 - 3) ^ 2 + (0 - 4) ^ 2)%R with (5 * 5)%R by ring.
  apply sqrt_square. lra.
Defined.

(** ** Slices *)

Section Slices.

Context {A : Type}.

Lemma slice_positions (l : list A) (a b : Z) :
  0 <= a <= Z.of_nat (length l) -> 0 <= b <= Z.of_nat (length l) ->
  slice l a b = positions l a b.
Proof.
  intros Ha Hb. unfold slice, positions, clamp.
  rewrite (proj2 (Z.ltb_ge a 0)), (proj2 (Z.ltb_ge b 0)) by lia.
  rewrite !Z.min_r, !Z.max_r by lia. reflexivity.
Qed.

Lemma slice_backward_positions (l : list A) (a b : Z) :
  0 <= a <= Z.of_nat (length l) - 1 -> 0 <= b <= Z.of_nat (length l) - 1 ->
  slice_backward l a b = rev (positions l (b + 1) (a + 1)).
Proof.
  intros Ha Hb. unfold slice_backward, positions, clamp.
  rewrite (proj2 (Z.ltb_ge a 0)), (proj2 (Z.ltb_ge b 0)) by lia.
  rewrite !Z.min_r, !Z.max_r by lia.
  replace (a + 1 - (b + 1)) with (a - b) by lia. reflexivity.
Qed.

Lemma positions_split (l : list A) (a b : Z) :
  0 <= a <= b -> b <= Z.of_nat (length l) ->
  l = positions l 0 a ++ positions l a b
      ++ positions l b (Z.of_nat (length l)).
Proof.
  intros Hab Hb. unfold positions.
  rewrite Z.sub_0_r. cbn [Z.to_nat skipn].
  rewrite <- (firstn_skipn (Z.to_nat a) l) at 1. f_equal.
  rewrite <- (firstn_skipn (Z.to_nat (b - a)) (skipn (Z.to_nat a) l)) at 1.
  f_equal. rewrite skipn_skipn.
  replace (Z.to_nat (b - a) + Z.to_nat a)%nat with (Z.to_nat b) by lia.
  symmetry. apply firstn_all2. rewrite length_skipn. lia.
Qed.

Lemma length_positions (l : list A) (a b : Z) :
  0 <= a <= b -> b <= Z.of_nat (length l) ->
  length (positions l a b) = Z.to_nat (b - a).
Proof.
  intros Hab Hb. unfold positions. rewrite length_firstn, length_skipn. lia.
Qed.

End Slices.

(** ** The perturbation [swap_cities] *)

Section SwapCities.

Lemma randint_value_range (low high draw : Z) :
  low < high -> low <= randint_value low high draw < high.
Proof.
  intros H. unfold randint_value.
  pose proof (Z.mod_pos_bound draw (high - low)). lia.
Qed.

(** One turn of the loop is one call of [randint] and the test of the
    program on its result. *)
Lemma choose_city2_turn (high city1 : Z) (t : tape) :
  choose_city2 high city1 t
  = (city2 <~ randint 2 high ;;
     if negb (city1 =? city2)
     then if city2 <? city1 then ret (city2, city1) else ret (city1, city2)
     else match t with
          | [] => fun _ => OutOfDraws
          | _ :: _ => fun t' => choose_city2 high city1 t'
          end) t.
Proof.
  unfold bindR, randint, ret.
  destruct t as [|draw t]; cbn [choose_city2];
    destruct (high <=? 2); try reflexivity.
  destruct (negb (city1 =? randint_value 2 high draw)); [|reflexivity].
  destruct (randint_value 2 high draw <? city1); reflexivity.
Qed.

Lemma choose_city2_first_distinct (high city1 draw2 : Z) (same rest : tape) :
  2 < high ->
  Forall (fun d => randint_value 2 high d = city1) same ->
  randint_value 2 high draw2 <> city1 ->
  choose_city2 high city1 (same ++ draw2 :: rest)
  = Ok (Z.min city1 (randint_value 2 high draw2),
        Z.max city1 (randint_value 2 high draw2), rest).
Proof.
  intros Hhigh Hsame Hne.
  assert (Hguard : (high <=? 2) = false) by (apply Z.leb_gt; lia).
  induction same as [|d same IH].
  - cbn [app choose_city2]. rewrite Hguard.
    rewrite (proj2 (Z.eqb_neq _ _)) by congruence. cbn [negb].
    destruct (Z.ltb_spec (randint_value 2 high draw2) city1).
    + rewrite Z.min_r, Z.max_l by lia. reflexivity.
    + rewrite Z.min_l, Z.max_r by lia. reflexivity.
  - inversion Hsame as [|? ? Hd Hsame']; subst.
    cbn [app choose_city2]. rewrite Hguard, Z.eqb_refl. cbn [negb].
    now apply IH.
Qed.

Lemma choose_city2_all_same (high city1 : Z) (same : tape) :
  2 < high ->
  Forall (fun d => randint_value 2 high d = city1) same ->
  choose_city2 high city1 same = OutOfDraws.
Proof.
  intros Hhigh Hsame.
  assert (Hguard : (high <=? 2) = false) by (apply Z.leb_gt; lia).
  induction same as [|d same IH]; cbn [choose_city2]; rewrite Hguard.
  - reflexivity.
  - inversion Hsame as [|? ? Hd Hsame']; subst.
    rewrite Z.eqb_refl. cbn [negb]. now apply IH.
Qed.

Lemma choose_city2_cases (high city1 : Z) (t : tape) :
  2 < high -> 2 <= city1 < high ->
  match choose_city2 high city1 t with
  | Ok (c1, c2, _) => 2 <= c1 /\ c1 < c2 /\ c2 < high
  | Raise _ => False
  | OutOfDraws => True
  end.
Proof.
  intros Hhigh Hcity1.
  assert (Hguard : (high <=? 2) = false) by (apply Z.leb_gt; lia).
  induction t as [|d t IH]; cbn [choose_city2]; rewrite Hguard; [exact I|].
  pose proof (randint_value_range 2 high d Hhigh) as Hd.
  destruct (Z.eqb_spec city1 (randint_value 2 high d)) as [E|E]; cbn [negb].
  - exact IH.
  - destruct (Z.ltb_spec (randint_value 2 high d) city1); lia.
Qed.

Lemma swap_parts (route : Route) (city1 city2 : Z) :
  2 <= city1 -> city1 < city2 -> city2 < Z.of_nat (length route) - 1 ->
  (slice route 0 (city1 - 1) ++ slice_backward route city2 (city1 - 2))
  ++ slice route (city2 + 1) (Z.of_nat (length route))
  = reverse_between route city1 city2.
Proof.
  intros H1 H12 H2. unfold reverse_between.
  rewrite !slice_positions, slice_backward_positions by lia.
  replace (city1 - 2 + 1) with (city1 - 1) by lia.
  now rewrite <- app_assoc.
Qed.

Lemma swap_cities_cases (route : Route) (t : tape) :
  2 < Z.of_nat (length route) - 1 ->
  match swap_cities route t with
  | Ok (new_route, _) =>
      exists city1 city2,
        2 <= city1 /\ city1 < city2 /\ city2 < Z.of_nat (length route) - 1
        /\ new_route = reverse_between route city1 city2
  | Raise _ => False
  | OutOfDraws => True
  end.
Proof.
  intros Hlen. unfold swap_cities, bindR, randint.
  rewrite (proj2 (Z.leb_gt _ _)) by lia.
  destruct t as [|d t]; [exact I|].
  pose proof (randint_value_range 2 _ d Hlen) as Hd.
  pose proof (choose_city2_cases _ _ t Hlen Hd) as Hc.
  destruct (choose_city2 _ _ t) as [[[c1 c2] t']|e|]; try assumption.
  unfold ret. exists c1, c2. repeat split; try lia.
  apply swap_parts; lia.
Qed.

(** On a tape that holds the draw of the first position, draws that repeat
    it and then a draw of another position, [swap_cities] returns. *)
Lemma swap_cities_distinct_draw (route : Route) (draw1 draw2 : Z)
  (same rest : tape) :
  let high := Z.of_nat (length route) - 1 in
  2 < high ->
  Forall (fun d => randint_value 2 high d = randint_value 2 high draw1) same ->
  randint_value 2 high draw2 <> randint_value 2 high draw1 ->
  swap_cities route (draw1 :: same ++ draw2 :: rest)
  = Ok (reverse_between route
          (Z.min (randint_value 2 high draw1) (randint_value 2 high draw2))
          (Z.max (randint_value 2 high draw1) (randint_value 2 high draw2)),
        rest).
Proof.
  intros high Hhigh Hsame Hne.
  pose proof (randint_value_range 2 high draw1 Hhigh) as H1.
  pose proof (randint_value_range 2 high draw2 Hhigh) as H2.
  unfold swap_cities, bindR, randint. fold high.
  rewrite (proj2 (Z.leb_gt high 2)) by lia.
  rewrite choose_city2_first_distinct by assumption.
  unfold ret. rewrite swap_parts by (fold high; lia). reflexivity.
Qed.

End SwapCities.

(** C5. For every tour of length N+1 with N >= 4, [swap_cities] draws the
    positions from the half-open range from 2 to N: with a tape that starts
    with the draw of [city1], continues with draws that repeat it and then
    holds a draw of a different position, the two positions are distinct and
    in that range, they are put in increasing order, and the result is
    exactly the prefix before [city1 - 1], the positions [city1 - 1] to
    [city2] read backward, and the suffix after [city2]; the draws after the
    distinct one are left on the tape. *)
Theorem swap_cities_reverses_segment (route : Route) (N : Z)
  (draw1 draw2 : Z) (same rest : tape) :
  Z.of_nat (length route) = N + 1 -> 4 <= N ->
  Forall (fun d => randint_value 2 N d = randint_value 2 N draw1) same ->
  randint_value 2 N draw2 <> randint_value 2 N draw1 ->
  let city1 := Z.min (randint_value 2 N draw1) (randint_value 2 N draw2) in
  let city2 := Z.max (randint_value 2 N draw1) (randint_value 2 N draw2) in
  (2 <= randint_value 2 N draw1 < N /\ 2 <= randint_value 2 N draw2 < N)
  /\ (2 <= city1 /\ city1 < city2 /\ city2 < N)
  /\ swap_cities route (draw1 :: same ++ draw2 :: rest)
     = Ok (reverse_between route city1 city2, rest).
Proof.
  intros Hlen HN Hsame Hne city1 city2.
  pose proof (randint_value_range 2 N draw1 ltac:(lia)) as H1.
  pose proof (randint_value_range 2 N draw2 ltac:(lia)) as H2.
  split; [now split|]. split; [subst city1 city2; lia|].
  assert (HNeq : N = Z.of_nat (length route) - 1) by lia.
  subst city1 city2. subst N.
  apply swap_cities_distinct_draw; [lia | assumption | assumption].
Qed.

(** The tour 0,1,2,3,4,5,0 with the draws 1, 1, 0: [city1] is drawn as 3,
    the second draw repeats it, the third gives 2; positions 1 to 3 are
    read backward. *)
Lemma swap_cities_reverses_segment_witness :
  swap_cities [0; 1; 2; 3; 4; 5; 0] [1; 1; 0; 7] = Ok ([0; 3; 2; 1; 4; 5; 0], [7]).
Proof.
  pose proof (swap_cities_reverses_segment [0; 1; 2; 3; 4; 5; 0] 6 1 0 [1] [7]
                eq_refl ltac:(lia)) as H.
  destruct H as (_ & _ & H).
  - constructor; [reflexivity | constructor].
  - vm_compute. discriminate.
  - exact H.
Defined.

(** ** Tours are kept by the perturbation *)

Section TourInvariant.

(** A route cut at the two chosen positions: a first city, the rest of the
    unchanged prefix, the segment, the unchanged suffix and the last city. *)
Lemma reverse_between_parts (route : Route) (city1 city2 : Z) :
  2 <= city1 -> city1 < city2 -> city2 < Z.of_nat (length route) - 1 ->
  exists first before segment after final,
    route = (first :: before) ++ segment ++ after ++ [final]
    /\ reverse_between route city1 city2
       = (first :: before) ++ rev segment ++ after ++ [final].
Proof.
  intros H1 H12 H2.
  pose proof (positions_split route (city1 - 1) (city2 + 1)
                ltac:(lia) ltac:(lia)) as Hsplit.
  pose proof (length_positions route 0 (city1 - 1) ltac:(lia) ltac:(lia)) as HP.
  pose proof (length_positions route (city2 + 1) (Z.of_nat (length route))
                ltac:(lia) ltac:(lia)) as HT.
  unfold reverse_between.
  destruct (positions route 0 (city1 - 1)) as [|first before];
    [cbn [length] in HP; lia|].
  assert (Hne : positions route (city2 + 1) (Z.of_nat (length route)) <> []).
  { intros E. rewrite E in HT. cbn [length] in HT. lia. }
  rewrite (app_removelast_last 0 Hne) in Hsplit |- *.
  eexists first, before, _, _, _. split; [exact Hsplit | reflexivity].
Qed.

Lemma last_of_parts (A : Type) (l1 l2 l3 : list A) (x d : A) :
  last (l1 ++ l2 ++ l3 ++ [x]) d = x.
Proof.
  rewrite !app_assoc. apply last_last.
Qed.

Lemma firstn_of_parts (A : Type) (n : nat) (l1 l2 l3 : list A) (x : A) :
  length (l1 ++ l2 ++ l3 ++ [x]) = S n ->
  firstn n (l1 ++ l2 ++ l3 ++ [x]) = l1 ++ l2 ++ l3.
Proof.
  intros Hlen. rewrite !app_assoc in *.
  rewrite length_app in Hlen. cbn [length] in Hlen.
  rewrite firstn_app.
  replace (n - length ((l1 ++ l2) ++ l3))%nat with 0%nat by lia.
  cbn [firstn]. rewrite app_nil_r. apply firstn_all2. lia.
Qed.

Lemma reverse_between_tour (N : nat) (route : Route) (city1 city2 : Z) :
  valid_tour N route ->
  2 <= city1 -> city1 < city2 -> city2 < Z.of_nat N ->
  length (reverse_between route city1 city2) = length route
  /\ hd 0 (reverse_between route city1 city2) = hd 0 route
  /\ last (reverse_between route city1 city2) 0 = last route 0
  /\ Permutation (reverse_between route city1 city2) route
  /\ valid_tour N (reverse_between route city1 city2).
Proof.
  intros (Hlen & Hclosed & Hperm) H1 H12 H2.
  destruct (reverse_between_parts route city1 city2)
    as (first & before & segment & after & final & Hroute & Hnew);
    [lia | lia | lia |].
  rewrite Hnew. clear Hnew. subst route.
  assert (Hlen' : length ((first :: before) ++ rev segment ++ after ++ [final])
                  = S N).
  { rewrite <- Hlen. rewrite !length_app, length_rev. reflexivity. }
  assert (HP : Permutation
                 ((first :: before) ++ rev segment ++ after ++ [final])
                 ((first :: before) ++ segment ++ after ++ [final])).
  { apply Permutation_app_head, Permutation_app_tail.
    symmetry. apply Permutation_rev. }
  rewrite last_of_parts in Hclosed.
  rewrite firstn_of_parts in Hperm by exact Hlen.
  split; [|split; [|split; [|split; [|split; [|split]]]]].
  - now rewrite Hlen', Hlen.
  - reflexivity.
  - now rewrite !last_of_parts.
  - exact HP.
  - exact Hlen'.
  - rewrite last_of_parts. exact Hclosed.
  - rewrite firstn_of_parts by exact Hlen'.
    rewrite <- Hperm.
    apply Permutation_app_head, Permutation_app_tail.
    symmetry. apply Permutation_rev.
Qed.

End TourInvariant.

(** C6. For every valid tour of N >= 4 cities (length N+1, first element
    equal to the last, first N elements a permutation of 0..N-1) and every
    tape of draws, [swap_cities] raises nothing, and the tour it returns has
    the same length, the same first and last element, entries that are a
    permutation of the entries of the input, and is again a valid tour:
    every index of 0..N-1 appears exactly once among its first N places.
    It does return a tour as soon as the tape holds a draw of a position
    other than the first one. *)
Theorem swap_cities_keeps_tour (N : nat) (route : Route) :
  valid_tour N route -> (4 <= N)%nat ->
  (forall t : tape,
     match swap_cities route t with
     | Ok (new_route, _) =>
         length new_route = length route
         /\ hd 0 new_route = hd 0 route
         /\ last new_route 0 = last route 0
         /\ Permutation new_route route
         /\ valid_tour N new_route
     | Raise _ => False
     | OutOfDraws => True
     end)
  /\
  (forall (draw1 draw2 : Z) (same rest : tape),
     Forall (fun d => randint_value 2 (Z.of_nat N) d
                      = randint_value 2 (Z.of_nat N) draw1) same ->
     randint_value 2 (Z.of_nat N) draw2 <> randint_value 2 (Z.of_nat N) draw1 ->
     exists new_route,
       swap_cities route (draw1 :: same ++ draw2 :: rest) = Ok (new_route, rest)).
Proof.
  intros Hvalid HN. pose proof Hvalid as (Hlen & _). split.
  - intros t.
    pose proof (swap_cities_cases route t ltac:(lia)) as H.
    destruct (swap_cities route t) as [[new_route t']|e|]; try assumption.
    destruct H as (city1 & city2 & H1 & H12 & H2 & ->).
    apply reverse_between_tour; try assumption. lia.
  - intros draw1 draw2 same rest Hsame Hne.
    assert (HNeq : Z.of_nat N = Z.of_nat (length route) - 1) by lia.
    rewrite HNeq in Hsame, Hne.
    eexists. apply swap_cities_distinct_draw; [lia | assumption | assumption].
Qed.

(** The tour 0,1,2,3,4,0 and the draws 0, 1: the positions 2 and 3 are
    chosen and the new tour 0,3,2,1,4,0 is a valid tour again. *)
Lemma swap_cities_keeps_tour_witness :
  swap_cities [0; 1; 2; 3; 4; 0] [0; 1] = Ok ([0; 3; 2; 1; 4; 0], [])
  /\ valid_tour 5 [0; 3; 2; 1; 4; 0].
Proof.
  split; [reflexivity|].
  assert (Hvalid : valid_tour 5 [0; 1; 2; 3; 4; 0]).
  { repeat split. apply Permutation_refl. }
  pose proof (proj1 (swap_cities_keeps_tour 5 [0; 1; 2; 3; 4; 0] Hvalid
                       ltac:(lia)) [0; 1]) as H.
  change (swap_cities [0; 1; 2; 3; 4; 0] [0; 1])
    with (@Ok (Route * tape) ([0; 3; 2; 1; 4; 0], [])) in H.
  exact (proj2 (proj2 (proj2 (proj2 H)))).
Defined.

(** ** One trial of the annealing loop *)

Section Trial.

Lemma Rltb_true (a b : R) : (a < b)%R -> Rltb a b = true.
Proof.
  intros H. unfold Rltb. destruct (Rlt_dec a b); [reflexivity|contradiction].
Qed.

Lemma Rltb_false (a b : R) : ~ (a < b)%R -> Rltb a b = false.
Proof.
  intros H. unfold Rltb. destruct (Rlt_dec a b); [contradiction|reflexivity].
Qed.

Lemma uniform_value_range (draw : Z) : (0 <= uniform_value draw < 1)%R.
Proof.
  unfold uniform_value.
  pose proof (Z.mod_pos_bound draw (2 ^ 53) ltac:(lia)) as [Hlo Hhi].
  apply IZR_le in Hlo. apply IZR_lt in Hhi.
  assert (Hpos : (0 < IZR (2 ^ 53))%R) by (apply IZR_lt; lia).
  split.
  - apply Rmult_le_pos; [exact Hlo|]. left. now apply Rinv_0_lt_compat.
  - apply (Rmult_lt_reg_r (IZR (2 ^ 53))); [exact Hpos|].
    unfold Rdiv. rewrite Rmult_assoc, Rinv_l, Rmult_1_r, Rmult_1_l; lra.
Qed.

Variable distances : matrix.
Variable dt : R.

(** The trial when the candidate is strictly shorter than the current
    route: no sample is drawn. *)
Lemma trial_shorter (st : state) (t t1 : tape) (new_route : Route)
  (new_length : R) :
  swap_cities (current_route st) t = Ok (new_route, t1) ->
  get_trip_length new_route distances = Ok new_length ->
  (new_length < current_length st)%R ->
  trial distances dt st t
  = Ok (mkState (temperature st + dt) new_route new_length
          (if Rltb new_length (shortest_length st)
           then new_route else best_route st)
          (if Rltb new_length (shortest_length st)
           then new_length else shortest_length st),
        t1).
Proof.
  intros Hswap Hlen Hlt. unfold trial, bindR. rewrite Hswap.
  unfold lift at 1. rewrite Hlen. rewrite (Rltb_true _ _ Hlt).
  unfold ret. cbn [andb shortest_length].
  destruct (Rltb new_length (shortest_length st)); reflexivity.
Qed.

(** The trial when the candidate is not strictly shorter: one sample is
    drawn and decides; the best route is left alone. *)
Lemma trial_not_shorter (st : state) (t t1 : tape) (new_route : Route)
  (new_length : R) :
  swap_cities (current_route st) t = Ok (new_route, t1) ->
  get_trip_length new_route distances = Ok new_length ->
  ~ (new_length < current_length st)%R ->
  trial distances dt st t
  = match t1 with
    | [] => OutOfDraws
    | draw :: t2 =>
        if Rltb (uniform_value draw)
             (exp (boltzmann_exponent (new_length - current_length st)
                     (temperature st)))
        then Ok (mkState (temperature st + dt) new_route new_length
                   (best_route st) (shortest_length st), t2)
        else Ok (mkState (temperature st + dt) (current_route st)
                   (current_length st) (best_route st) (shortest_length st),
                 t2)
    end.
Proof.
  intros Hswap Hlen Hge. unfold trial, bindR. rewrite Hswap.
  unfold lift at 1. rewrite Hlen. rewrite (Rltb_false _ _ Hge).
  unfold random. destruct t1 as [|draw t2]; [reflexivity|].
  unfold ret. cbn [andb].
  destruct (Rltb (uniform_value draw) _); reflexivity.
Qed.

(** A trial that ends has drawn a candidate and measured it. *)
Lemma trial_candidate (st st' : state) (t t' : tape) :
  trial distances dt st t = Ok (st', t') ->
  exists new_route t1 new_length,
    swap_cities (current_route st) t = Ok (new_route, t1)
    /\ get_trip_length new_route distances = Ok new_length.
Proof.
  unfold trial, bindR.
  destruct (swap_cities (current_route st) t) as [[new_route t1]|e|];
    try discriminate.
  unfold lift at 1.
  destruct (get_trip_length new_route distances) as [new_length|e|] eqn:Hlen;
    try discriminate.
  intros _. now exists new_route, t1, new_length.
Qed.

End Trial.

(** C1. In every trial of the annealing loop, once [swap_cities] has
    produced the candidate and its length is measured: if the candidate is
    strictly shorter than the current route (dL < 0) it is accepted without
    any sample being drawn; otherwise exactly one sample R is drawn, it lies
    in the half-open unit interval, and the candidate is accepted exactly
    when R < exp(-dL / k * temperature) with k = 1/100, the quotient by k
    being multiplied by the temperature. On acceptance the current route
    and the current length become the candidate and its length; without
    acceptance they stay. *)
Theorem trial_acceptance_rule (distances : matrix) (dt : R) (st : state)
  (t t1 : tape) (new_route : Route) (new_length : R) :
  swap_cities (current_route st) t = Ok (new_route, t1) ->
  get_trip_length new_route distances = Ok new_length ->
  let dL := (new_length - current_length st)%R in
  ((dL < 0)%R ->
   exists st',
     trial distances dt st t = Ok (st', t1)
     /\ current_route st' = new_route /\ current_length st' = new_length)
  /\
  (~ (dL < 0)%R ->
   forall draw t2, t1 = draw :: t2 ->
     let R := uniform_value draw in
     (0 <= R < 1)%R
     /\ exists st',
          trial distances dt st t = Ok (st', t2)
          /\ ((R < exp (- dL / (1 / 100) * temperature st))%R ->
              current_route st' = new_route
              /\ current_length st' = new_length)
          /\ (~ (R < exp (- dL / (1 / 100) * temperature st))%R ->
              current_route st' = current_route st
              /\ current_length st' = current_length st)).
Proof.
  intros Hswap Hlen dL. split.
  - intros HdL. eexists. split; [|split].
    + apply trial_shorter; [eassumption | eassumption | unfold dL in HdL; lra].
    + reflexivity.
    + reflexivity.
  - intros HdL draw t2 -> R. split; [apply uniform_value_range|].
    rewrite (trial_not_shorter distances dt st t (draw :: t2) new_route new_length)
      by (assumption || (unfold dL in HdL; lra)).
    fold dL. change (boltzmann_exponent dL (temperature st))
      with (- dL / (1 / 100) * temperature st)%R.
    fold R. unfold Rltb.
    destruct (Rlt_dec R (exp (- dL / (1 / 100) * temperature st)));
      eexists; (split; [reflexivity|]); split; intros H;
      try contradiction; split; reflexivity.
Qed.

(** The candidate 0,3,2,1,4,0 of the tour of five cities has the length of
    the current route when all distances are zero: one sample is drawn and
    the trial ends in a state. *)
Lemma trial_acceptance_rule_witness :
  exists st', trial (zeros 5) 1 five_cities_state [0; 1; 5] = Ok (st', []).
Proof.
  destruct (trial_acceptance_rule (zeros 5) 1 five_cities_state
              [0; 1; 5] [5] [0; 3; 2; 1; 4; 0] five_zero_edges
              eq_refl eq_refl) as [_ H].
  destruct H with (draw := 5) (t2 := @nil Z) as (_ & st' & Htrial & _).
  - cbn [five_cities_state current_length]. lra.
  - reflexivity.
  - now exists st'.
Defined.

(** The exponent of the program is not the conventional -dL / (k * T): for
    dL = 1 and T = 2 the program has -200, the conventional form -50. *)
Lemma boltzmann_exponent_not_conventional :
  boltzmann_exponent 1 2 = (-200)%R /\ (- 1 / (k * 2))%R = (-50)%R.
Proof.
  unfold boltzmann_exponent, k. split; field.
Qed.

(** ** The best route across the trials *)

Section BestRoute.

Variable distances : matrix.
Variable dt : R.

Lemma trial_keeps_best_below (st st' : state) (t t' : tape) :
  (shortest_length st <= current_length st)%R ->
  trial distances dt st t = Ok (st', t') ->
  (shortest_length st' <= current_length st')%R.
Proof.
  intros Hinv Htrial.
  destruct (trial_candidate _ _ _ _ _ _ Htrial)
    as (new_route & t1 & new_length & Hswap & Hlen).
  destruct (Rlt_dec new_length (current_length st)) as [Hlt|Hge].
  - rewrite (trial_shorter _ _ _ _ _ _ _ Hswap Hlen Hlt) in Htrial.
    injection Htrial as <- _. cbn [shortest_length current_length].
    unfold Rltb. destruct (Rlt_dec new_length (shortest_length st)); lra.
  - rewrite (trial_not_shorter _ _ _ _ _ _ _ Hswap Hlen Hge) in Htrial.
    destruct t1 as [|draw t2]; [discriminate|].
    destruct (Rltb (uniform_value draw) _);
      injection Htrial as <- _; cbn [shortest_length current_length]; lra.
Qed.

(** When the candidate is not strictly shorter than the current route, the
    trial never touches the best route, in any state. *)
Lemma trial_not_shorter_keeps_best (st st' : state) (t t1 t' : tape)
  (new_route : Route) (new_length : R) :
  swap_cities (current_route st) t = Ok (new_route, t1) ->
  get_trip_length new_route distances = Ok new_length ->
  ~ (new_length < current_length st)%R ->
  trial distances dt st t = Ok (st', t') ->
  best_route st' = best_route st /\ shortest_length st' = shortest_length st.
Proof.
  intros Hswap Hlen Hge Htrial.
  rewrite (trial_not_shorter _ _ _ _ _ _ _ Hswap Hlen Hge) in Htrial.
  destruct t1 as [|draw t2]; [discriminate|].
  destruct (Rltb (uniform_value draw) _);
    injection Htrial as <- _; split; reflexivity.
Qed.

Lemma reachable_best_below (route : Route) (initial_temperature : R)
  (st : state) :
  reachable route distances initial_temperature dt st ->
  (shortest_length st <= current_length st)%R.
Proof.
  induction 1 as [st Hinit|st st' t t' _ IH Htrial].
  - unfold initial_state in Hinit.
    destruct (get_trip_length route distances); try discriminate.
    cbn [bind] in Hinit. injection Hinit as <-. cbn. lra.
  - eapply trial_keeps_best_below; eassumption.
Qed.

Lemma run_trials_reachable (route : Route) (initial_temperature : R)
  (n : nat) (st st' : state) (t t' : tape) :
  reachable route distances initial_temperature dt st ->
  run_trials distances dt n st t = Ok (st', t') ->
  reachable route distances initial_temperature dt st'.
Proof.
  revert st t. induction n as [|n IH]; intros st t Hreach Hrun.
  - cbn in Hrun. unfold ret in Hrun. now injection Hrun as <- _.
  - cbn [run_trials] in Hrun. unfold bindR in Hrun.
    destruct (trial distances dt st t) as [[st1 t1]|e|] eqn:Htrial;
      try discriminate.
    apply (IH st1 t1); [|exact Hrun].
    eapply reachable_trial; eassumption.
Qed.

End BestRoute.

(** One trial from the state of the tour of five cities, all distances
    being zero, with the draws 0 and 1 for the positions and 5 for the
    sample: the candidate 0,3,2,1,4,0 has the length of the current route,
    the sample 5/2^53 is below exp(0) = 1, the candidate is accepted and
    the best route stays. *)
Lemma five_cities_trial (dt : R) :
  trial (zeros 5) dt five_cities_state [0; 1; 5]
  = Ok (five_cities_after_trial dt, []).
Proof.
  rewrite (trial_not_shorter (zeros 5) dt five_cities_state [0; 1; 5] [5]
             [0; 3; 2; 1; 4; 0] five_zero_edges eq_refl eq_refl)
    by (cbn [five_cities_state current_length]; lra).
  rewrite Rltb_true; [reflexivity|].
  cbn [five_cities_state current_length temperature].
  replace (boltzmann_exponent (five_zero_edges - five_zero_edges) 50) with 0%R
    by (unfold boltzmann_exponent, k; field).
  rewrite exp_0. apply uniform_value_range.
Qed.

(** A second trial with the same draws reverses the same positions and is
    accepted in the same way: the first tour is current again. *)
Lemma five_cities_second_trial (dt : R) :
  trial (zeros 5) dt (five_cities_after_trial dt) [0; 1; 5]
  = Ok (five_cities_after_two_trials dt, []).
Proof.
  rewrite (trial_not_shorter (zeros 5) dt (five_cities_after_trial dt)
             [0; 1; 5] [5] five_cities_tour five_zero_edges eq_refl eq_refl)
    by (cbn [five_cities_after_trial current_length]; lra).
  rewrite Rltb_true; [reflexivity|].
  cbn [five_cities_after_trial current_length temperature].
  replace (boltzmann_exponent (five_zero_edges - five_zero_edges) (50 + dt))
    with 0%R by (unfold boltzmann_exponent, k; field).
  rewrite exp_0. apply uniform_value_range.
Qed.

Lemma five_cities_reachable (dt : R) :
  reachable five_cities_tour (zeros 5) 50 dt five_cities_state.
Proof.
  apply reachable_initial. reflexivity.
Qed.

(** C2. In every trial of [optimize_route], that is from every state the
    loop reaches: if the candidate is accepted, by being strictly shorter
    than the current route or by the sample drawn for it, and its length is
    strictly smaller than the best length so far, then the best route and
    the best length become the candidate and its length; otherwise the
    trial leaves the best route and the best length unchanged. *)
Theorem trial_updates_best (route : Route) (distances : matrix)
  (initial_temperature dt : R) (st st' : state) (t t1 t' : tape)
  (new_route : Route) (new_length : R) :
  reachable route distances initial_temperature dt st ->
  swap_cities (current_route st) t = Ok (new_route, t1) ->
  get_trip_length new_route distances = Ok new_length ->
  trial distances dt st t = Ok (st', t') ->
  let accepted :=
    (new_length < current_length st)%R
    \/ exists draw,
         t1 = draw :: t'
         /\ (uniform_value draw
             < exp (boltzmann_exponent (new_length - current_length st)
                      (temperature st)))%R in
  (accepted /\ (new_length < shortest_length st)%R ->
   best_route st' = new_route /\ shortest_length st' = new_length)
  /\
  (~ (accepted /\ (new_length < shortest_length st)%R) ->
   best_route st' = best_route st /\ shortest_length st' = shortest_length st).
Proof.
  intros Hreach Hswap Hlen Htrial accepted.
  pose proof (reachable_best_below _ _ _ _ _ Hreach) as Hinv.
  destruct (Rlt_dec new_length (current_length st)) as [Hlt|Hge].
  - rewrite (trial_shorter _ _ _ _ _ _ _ Hswap Hlen Hlt) in Htrial.
    injection Htrial as <- _. cbn [best_route shortest_length].
    unfold Rltb. destruct (Rlt_dec new_length (shortest_length st)) as [Hb|Hb].
    + split; [now split|]. intros Hno. exfalso. apply Hno. split; [now left|exact Hb].
    + split; [intros [_ H]; contradiction | now split].
  - destruct (trial_not_shorter_keeps_best _ _ _ _ _ _ _ _ _ Hswap Hlen Hge Htrial)
      as [Hbest Hshort].
    split; [|now split].
    intros [_ Hb]. exfalso. lra.
Qed.

(** The trial from the state of the tour of five cities: the candidate is
    accepted by its sample but is not shorter than the best route, which
    stays. *)
Lemma trial_updates_best_witness :
  best_route (five_cities_after_trial 1) = best_route five_cities_state
  /\ shortest_length (five_cities_after_trial 1)
     = shortest_length five_cities_state.
Proof.
  destruct (trial_updates_best five_cities_tour (zeros 5) 50 1
              five_cities_state _ [0; 1; 5] [5] []
              [0; 3; 2; 1; 4; 0] five_zero_edges
              (five_cities_reachable 1) eq_refl eq_refl (five_cities_trial 1))
    as [_ Hkeep].
  apply Hkeep. intros [_ Hlt].
  cbn [five_cities_state shortest_length] in Hlt. lra.
Defined.

(** C8. Throughout [optimize_route], in the state before the first trial
    and after every trial, the best length is at most the current length.
    Consequently a candidate that is no strict improvement over the current
    route (dL >= 0) is never strictly shorter than the best found so far,
    and a trial replaces the best route only when the candidate is strictly
    shorter than the current route. *)
Theorem best_length_at_most_current (route : Route) (distances : matrix)
  (initial_temperature dt : R) (st : state) :
  reachable route distances initial_temperature dt st ->
  (shortest_length st <= current_length st)%R
  /\
  forall (t t1 t' : tape) (new_route : Route) (new_length : R) (st' : state),
    swap_cities (current_route st) t = Ok (new_route, t1) ->
    get_trip_length new_route distances = Ok new_length ->
    trial distances dt st t = Ok (st', t') ->
    ((new_length - current_length st >= 0)%R ->
     ~ (new_length < shortest_length st)%R
     /\ best_route st' = best_route st
     /\ shortest_length st' = shortest_length st)
    /\
    (best_route st' <> best_route st \/ shortest_length st' <> shortest_length st ->
     (new_length < current_length st)%R).
Proof.
  intros Hreach.
  pose proof (reachable_best_below _ _ _ _ _ Hreach) as Hinv.
  split; [exact Hinv|].
  intros t t1 t' new_route new_length st' Hswap Hlen Htrial.
  assert (Hkeep : ~ (new_length < current_length st)%R ->
                  best_route st' = best_route st
                  /\ shortest_length st' = shortest_length st).
  { intros Hge. eapply trial_not_shorter_keeps_best; eassumption. }
  split.
  - intros HdL.
    assert (Hge : ~ (new_length < current_length st)%R) by lra.
    split; [lra|]. now apply Hkeep.
  - intros Hchanged.
    destruct (Rlt_dec new_length (current_length st)) as [Hlt|Hge];
      [exact Hlt|].
    destruct (Hkeep Hge) as [Hb Hs]. destruct Hchanged; contradiction.
Qed.

(** After the trial from the state of the tour of five cities the best
    length 0 is at most the current length. *)
Lemma best_length_at_most_current_witness :
  (shortest_length (five_cities_after_trial 1)
   <= current_length (five_cities_after_trial 1))%R.
Proof.
  apply (best_length_at_most_current five_cities_tour (zeros 5) 50 1).
  apply (reachable_trial _ _ _ _ five_cities_state _ [0; 1; 5] []).
  - apply five_cities_reachable.
  - apply five_cities_trial.
Defined.

(** ** The whole run of [optimize_route] *)

Section Run.

Lemma index_in_range (A : Type) (l : list A) (i : Z) (d : A) :
  0 <= i < Z.of_nat (length l) -> index l i = Ok (nth (Z.to_nat i) l d).
Proof.
  intros Hi. unfold index.
  rewrite (proj2 (Z.ltb_ge i (- Z.of_nat (length l)))) by lia.
  rewrite (proj2 (Z.leb_gt (Z.of_nat (length l)) i)) by lia.
  rewrite (proj2 (Z.ltb_ge i 0)) by lia. cbn [orb].
  rewrite (nth_error_nth' l d) by lia. reflexivity.
Qed.

Lemma matrix_at_in_range (N : nat) (distances : matrix) (a b : Z) :
  square N distances -> 0 <= a < Z.of_nat N -> 0 <= b < Z.of_nat N ->
  matrix_at distances a b = Ok (mget distances (Z.to_nat a) (Z.to_nat b)).
Proof.
  intros [Hrows Hcols] Ha Hb. unfold matrix_at, mget.
  rewrite (index_in_range _ distances a []) by lia. cbn [bind].
  apply index_in_range. rewrite Hcols by lia. lia.
Qed.

Lemma trip_from_in_range (N : nat) (distances : matrix) (route : Route)
  (trip_length : R) :
  square N distances ->
  Forall (fun a => 0 <= a < Z.of_nat N) route ->
  exists total, trip_from route distances trip_length = Ok total.
Proof.
  intros Hsq. revert trip_length.
  induction route as [|a route IH]; intros acc Hrange.
  - now exists acc.
  - inversion Hrange as [|? ? Ha Hrest]; subst.
    destruct route as [|b route]; [now exists acc|].
    inversion Hrest as [|? ? Hb _]; subst.
    cbn [trip_from]. rewrite (matrix_at_in_range N) by assumption.
    cbn [bind]. now apply IH.
Qed.

Lemma valid_tour_in_range (N : nat) (route : Route) :
  valid_tour N route -> (1 <= N)%nat ->
  Forall (fun a => 0 <= a < Z.of_nat N) route.
Proof.
  intros (Hlen & Hclosed & Hperm) HN.
  assert (Hfirst : Forall (fun a => 0 <= a < Z.of_nat N) (firstn N route)).
  { apply Forall_forall. intros a Ha.
    apply (Permutation_in _ Hperm) in Ha.
    apply in_map_iff in Ha as (i & <- & Hi). apply in_seq in Hi. lia. }
  assert (Hne : route <> []) by (intros ->; discriminate).
  rewrite (app_removelast_last 0 Hne).
  rewrite removelast_firstn_len, Hlen. cbn [Nat.pred].
  apply Forall_app. split; [exact Hfirst|].
  constructor; [|constructor]. rewrite <- Hclosed.
  destruct route as [|a route]; [congruence|].
  destruct N as [|N]; [lia|]. cbn [firstn hd] in *.
  now inversion Hfirst.
Qed.

Lemma valid_tour_length (N : nat) (distances : matrix) (route : Route) :
  square N distances -> valid_tour N route -> (1 <= N)%nat ->
  exists total, get_trip_length route distances = Ok total.
Proof.
  intros Hsq Hvalid HN. unfold get_trip_length.
  apply (trip_from_in_range N); [assumption|].
  now apply valid_tour_in_range.
Qed.

Lemma optimize_route_unfold (route : Route) (distances : matrix)
  (initial_temperature : R) (trials : Z) (final_temperature : R) (t : tape) :
  optimize_route route distances initial_temperature trials final_temperature t
  = match initial_state route distances initial_temperature with
    | Ok st =>
        match temperature_step initial_temperature trials final_temperature with
        | Ok dt =>
            match run_trials distances dt (Z.to_nat trials) st t with
            | Ok (st', t') => Ok (best_route st', t')
            | Raise e => Raise e
            | OutOfDraws => OutOfDraws
            end
        | Raise e => Raise e
        | OutOfDraws => OutOfDraws
        end
    | Raise e => Raise e
    | OutOfDraws => OutOfDraws
    end.
Proof.
  unfold optimize_route, bindR, lift, ret.
  destruct (initial_state route distances initial_temperature); try reflexivity.
  destruct (temperature_step initial_temperature trials final_temperature);
    reflexivity.
Qed.

Variable distances : matrix.
Variable dt : R.

(** A property of the state that every trial keeps is kept by the loop. *)
Lemma run_trials_keeps (P : state -> Prop) :
  (forall st st' t t', P st -> trial distances dt st t = Ok (st', t') -> P st') ->
  forall n st st' t t',
    P st -> run_trials distances dt n st t = Ok (st', t') -> P st'.
Proof.
  intros Hstep. induction n as [|n IH]; intros st st' t t' HP Hrun.
  - cbn in Hrun. unfold ret in Hrun. now injection Hrun as <- _.
  - cbn [run_trials] in Hrun. unfold bindR in Hrun.
    destruct (trial distances dt st t) as [[st1 t1]|e|] eqn:Htrial;
      try discriminate.
    apply (IH st1 st' t1 t'); [|exact Hrun]. eapply Hstep; eassumption.
Qed.

(** When no trial raises under a property that the trials keep, the loop
    does not raise. *)
Lemma run_trials_no_raise (P : state -> Prop) :
  (forall st st' t t', P st -> trial distances dt st t = Ok (st', t') -> P st') ->
  (forall st t e, P st -> trial distances dt st t <> Raise e) ->
  forall n st t e, P st -> run_trials distances dt n st t <> Raise e.
Proof.
  intros Hstep Hsafe. induction n as [|n IH]; intros st t e HP Hrun.
  - discriminate Hrun.
  - cbn [run_trials] in Hrun. unfold bindR in Hrun.
    destruct (trial distances dt st t) as [[st1 t1]|e1|] eqn:Htrial;
      try discriminate.
    + apply (IH st1 t1 e); [|exact Hrun]. eapply Hstep; eassumption.
    + now apply (Hsafe st t e1).
Qed.

Lemma trial_best_within (bound : R) (st st' : state) (t t' : tape) :
  best_within distances bound st -> trial distances dt st t = Ok (st', t') ->
  best_within distances bound st'.
Proof.
  intros [Hbest Hbound] Htrial.
  destruct (trial_candidate _ _ _ _ _ _ Htrial)
    as (new_route & t1 & new_length & Hswap & Hlen).
  destruct (Rlt_dec new_length (current_length st)) as [Hlt|Hge].
  - rewrite (trial_shorter _ _ _ _ _ _ _ Hswap Hlen Hlt) in Htrial.
    injection Htrial as <- _. unfold best_within, Rltb.
    cbn [best_route shortest_length].
    destruct (Rlt_dec new_length (shortest_length st)); split;
      try assumption; lra.
  - destruct (trial_not_shorter_keeps_best _ _ _ _ _ _ _ _ _
                Hswap Hlen Hge Htrial) as [Hb Hs].
    unfold best_within. now rewrite Hb, Hs.
Qed.

Lemma trial_keeps_tour (N : nat) (st st' : state) (t t' : tape) :
  (3 <= N)%nat -> valid_tour N (current_route st) ->
  trial distances dt st t = Ok (st', t') ->
  valid_tour N (current_route st').
Proof.
  intros HN Hvalid Htrial.
  destruct (trial_candidate _ _ _ _ _ _ Htrial)
    as (new_route & t1 & new_length & Hswap & Hlen).
  assert (Hnew : valid_tour N new_route).
  { pose proof Hvalid as (Hl & _).
    pose proof (swap_cities_cases (current_route st) t ltac:(lia)) as H.
    rewrite Hswap in H. destruct H as (c1 & c2 & H1 & H12 & H2 & ->).
    apply reverse_between_tour; try assumption. lia. }
  destruct (Rlt_dec new_length (current_length st)) as [Hlt|Hge].
  - rewrite (trial_shorter _ _ _ _ _ _ _ Hswap Hlen Hlt) in Htrial.
    now injection Htrial as <- _.
  - rewrite (trial_not_shorter _ _ _ _ _ _ _ Hswap Hlen Hge) in Htrial.
    destruct t1 as [|draw t2]; [discriminate|].
    destruct (Rltb (uniform_value draw) _); now injection Htrial as <- _.
Qed.

Lemma trial_no_raise (N : nat) (st : state) (t : tape) (e : exn) :
  (3 <= N)%nat -> square N distances -> valid_tour N (current_route st) ->
  trial distances dt st t <> Raise e.
Proof.
  intros HN Hsq Hvalid Htrial.
  pose proof Hvalid as (Hl & _).
  pose proof (swap_cities_cases (current_route st) t ltac:(lia)) as H.
  destruct (swap_cities (current_route st) t) as [[new_route t1]|e1|] eqn:Hswap.
  - destruct H as (c1 & c2 & H1 & H12 & H2 & ->).
    destruct (valid_tour_length N distances
                (reverse_between (current_route st) c1 c2))
      as [new_length Hlen]; [assumption| |lia|].
    + apply reverse_between_tour; try assumption. lia.
    + destruct (Rlt_dec new_length (current_length st)) as [Hlt|Hge].
      * rewrite (trial_shorter _ _ _ _ _ _ _ Hswap Hlen Hlt) in Htrial.
        discriminate.
      * rewrite (trial_not_shorter _ _ _ _ _ _ _ Hswap Hlen Hge) in Htrial.
        destruct t1 as [|draw t2]; [discriminate|].
        destruct (Rltb (uniform_value draw) _); discriminate.
  - contradiction.
  - unfold trial, bindR in Htrial. rewrite Hswap in Htrial. discriminate.
Qed.

Lemma ample_cons (n : nat) : ample n = 0 :: tl (ample n).
Proof. destruct n; reflexivity. Qed.

(** A trial on a valid tour of at least four cities ends in a state when
    the tape is ample, and leaves an ample tape for the trials to come. *)
Lemma trial_progress (N n : nat) (st : state) (t : tape) :
  (4 <= N)%nat -> square N distances -> valid_tour N (current_route st) ->
  t = ample (S n) \/ t = tl (ample (S n)) ->
  exists st' t',
    trial distances dt st t = Ok (st', t')
    /\ (t' = ample n \/ t' = tl (ample n)).
Proof.
  intros HN Hsq Hvalid Ht. pose proof Hvalid as (Hlen & _).
  set (high := Z.of_nat (length (current_route st)) - 1).
  assert (H0 : randint_value 2 high 0 = 2).
  { unfold randint_value. rewrite Z.mod_0_l by lia. lia. }
  assert (H1 : randint_value 2 high 1 = 3).
  { unfold randint_value. rewrite Z.mod_1_l by lia. lia. }
  assert (Hswap : swap_cities (current_route st) t
                  = Ok (reverse_between (current_route st) 2 3, ample n)).
  { destruct Ht as [-> | ->]; cbn [ample tl].
    - change (0 :: 0 :: 1 :: ample n) with (0 :: [0] ++ 1 :: ample n).
      rewrite (swap_cities_distinct_draw (current_route st) 0 1 [0] (ample n)).
      + fold high. rewrite H0, H1. reflexivity.
      + lia.
      + constructor; [reflexivity|constructor].
      + fold high. rewrite H0, H1. lia.
    - change (0 :: 1 :: ample n) with (0 :: [] ++ 1 :: ample n).
      rewrite (swap_cities_distinct_draw (current_route st) 0 1 [] (ample n)).
      + fold high. rewrite H0, H1. reflexivity.
      + lia.
      + constructor.
      + fold high. rewrite H0, H1. lia. }
  destruct (valid_tour_length N distances
              (reverse_between (current_route st) 2 3))
    as [new_length Hnew]; [assumption| |lia|].
  { apply reverse_between_tour; try assumption; lia. }
  destruct (Rlt_dec new_length (current_length st)) as [Hlt|Hge].
  - rewrite (trial_shorter _ _ _ _ _ _ _ Hswap Hnew Hlt).
    eexists _, _. split; [reflexivity|now left].
  - rewrite (trial_not_shorter _ _ _ _ _ _ _ Hswap Hnew Hge).
    rewrite (ample_cons n).
    destruct (Rltb (uniform_value 0) _);
      eexists _, _; (split; [reflexivity|now right]).
Qed.

Lemma run_trials_progress (N n : nat) (st : state) (t : tape) :
  (4 <= N)%nat -> square N distances -> valid_tour N (current_route st) ->
  t = ample n \/ t = tl (ample n) ->
  exists st' t', run_trials distances dt n st t = Ok (st', t').
Proof.
  intros HN Hsq. revert st t. induction n as [|n IH]; intros st t Hvalid Ht.
  - now exists st, t.
  - destruct (trial_progress N n st t HN Hsq Hvalid Ht)
      as (st1 & t1 & Htrial & Ht1).
    cbn [run_trials]. unfold bindR. rewrite Htrial.
    apply IH; [|exact Ht1].
    apply (trial_keeps_tour N st st1 t t1); [lia|assumption|assumption].
Qed.

End Run.

(** On an ample tape [optimize_route] returns a tour, for every valid tour
    of at least four cities and every trial count other than 1. *)
Lemma optimize_route_returns (N : nat) (route : Route) (distances : matrix)
  (initial_temperature : R) (trials : Z) (final_temperature : R) :
  valid_tour N route -> square N distances -> (4 <= N)%nat -> trials <> 1 ->
  exists best t',
    optimize_route route distances initial_temperature trials
      final_temperature (ample (Z.to_nat trials)) = Ok (best, t').
Proof.
  intros Hvalid Hsq HN Htrials. rewrite optimize_route_unfold.
  unfold initial_state.
  destruct (valid_tour_length N distances route Hsq Hvalid ltac:(lia))
    as [initial_length Hinit].
  rewrite Hinit. cbn [bind]. unfold temperature_step.
  rewrite (proj2 (Z.eqb_neq (trials - 1) 0)) by lia.
  destruct (run_trials_progress distances
              ((final_temperature - initial_temperature) / IZR (trials - 1))%R
              N (Z.to_nat trials)
              (mkState initial_temperature route initial_length route
                 initial_length)
              (ample (Z.to_nat trials)) HN Hsq Hvalid (or_introl eq_refl))
    as (st' & t' & Hrun).
  rewrite Hrun. now exists (best_route st'), t'.
Qed.

(** The run of two trials on the tour of five cities, all distances zero:
    both candidates are accepted by their samples, none is shorter, and the
    first tour is returned. *)
Lemma five_cities_run :
  optimize_route five_cities_tour (zeros 5) 50 2 1 [0; 1; 5; 0; 1; 5]
  = Ok (five_cities_tour, []).
Proof.
  rewrite optimize_route_unfold.
  change (initial_state five_cities_tour (zeros 5) 50)
    with (Ok five_cities_state).
  change (temperature_step 50 2 1) with (Ok ((1 - 50) / IZR (2 - 1))%R).
  cbv iota. change (Z.to_nat 2) with 2%nat. cbn [run_trials]. unfold bindR.
  set (dt := ((1 - 50) / IZR (2 - 1))%R).
  assert (H1 : trial (zeros 5) dt five_cities_state [0; 1; 5; 0; 1; 5]
               = Ok (five_cities_after_trial dt, [0; 1; 5])).
  { rewrite (trial_not_shorter (zeros 5) dt five_cities_state
               [0; 1; 5; 0; 1; 5] [5; 0; 1; 5]
               [0; 3; 2; 1; 4; 0] five_zero_edges eq_refl eq_refl)
      by (cbn [five_cities_state current_length]; lra).
    rewrite Rltb_true; [reflexivity|].
    cbn [five_cities_state current_length temperature].
    replace (boltzmann_exponent (five_zero_edges - five_zero_edges) 50)
      with 0%R by (unfold boltzmann_exponent, k; field).
    rewrite exp_0. apply uniform_value_range. }
  rewrite H1, five_cities_second_trial. reflexivity.
Qed.

(** C7. For every valid tour of N cities, every N x N matrix of distances
    and every trial count of at least 2, whatever the draws: when
    [optimize_route] returns a tour, the length of that tour and of the
    initial tour are both defined by [get_trip_length] and the first is at
    most the second. The call raises only for tours of fewer than three
    cities, where [swap_cities] has no range to draw from, and for tours of
    at least four cities it does return a tour when the tape is ample. *)
Theorem optimize_route_never_longer (N : nat) (route : Route)
  (distances : matrix) (initial_temperature : R) (trials : Z)
  (final_temperature : R) :
  valid_tour N route -> square N distances -> 2 <= trials ->
  (forall t : tape,
     match optimize_route route distances initial_temperature trials
             final_temperature t with
     | Ok (best, _) =>
         exists best_length initial_length,
           get_trip_length best distances = Ok best_length
           /\ get_trip_length route distances = Ok initial_length
           /\ (best_length <= initial_length)%R
     | Raise _ => (N <= 2)%nat
     | OutOfDraws => True
     end)
  /\
  ((4 <= N)%nat ->
   exists best t',
     optimize_route route distances initial_temperature trials
       final_temperature (ample (Z.to_nat trials)) = Ok (best, t')).
Proof.
  intros Hvalid Hsq Htrials. split;
    [|intros HN; apply (optimize_route_returns N); (assumption || lia)].
  intros t. rewrite optimize_route_unfold.
  unfold initial_state.
  destruct (get_trip_length route distances) as [initial_length|e|] eqn:Hinit;
    cbn [bind].
  - unfold temperature_step.
    rewrite (proj2 (Z.eqb_neq (trials - 1) 0)) by lia.
    set (dt := ((final_temperature - initial_temperature) / IZR (trials - 1))%R).
    set (st := mkState initial_temperature route initial_length route
                 initial_length).
    destruct (run_trials distances dt (Z.to_nat trials) st t)
      as [[st' t']|e|] eqn:Hrun.
    + assert (Hbest : best_within distances initial_length st').
      { apply (run_trials_keeps distances dt (best_within distances initial_length)
                 (trial_best_within distances dt initial_length)
                 (Z.to_nat trials) st st' t t'); [|exact Hrun].
        split; [exact Hinit | apply Rle_refl]. }
      destruct Hbest as [Hlen Hle].
      now exists (shortest_length st'), initial_length.
    + destruct (le_lt_dec N 2) as [Hsmall|Hbig]; [exact Hsmall|]. exfalso.
      apply (run_trials_no_raise distances dt
               (fun st => valid_tour N (current_route st))) with
        (n := Z.to_nat trials) (st := st) (t := t) (e := e).
      * intros st1 st2 t1 t2. apply trial_keeps_tour. lia.
      * intros st1 t1 e1. apply trial_no_raise; [lia|exact Hsq].
      * exact Hvalid.
      * exact Hrun.
    + exact I.
  - destruct (le_lt_dec N 2) as [Hsmall|Hbig]; [exact Hsmall|]. exfalso.
    destruct (valid_tour_length N distances route Hsq Hvalid ltac:(lia))
      as [total Htotal].
    congruence.
  - exact I.
Qed.

(** The run of two trials on the tour of five cities returns a tour whose
    length is at most the length of the initial tour. *)
Lemma optimize_route_never_longer_witness :
  optimize_route five_cities_tour (zeros 5) 50 2 1 [0; 1; 5; 0; 1; 5]
  = Ok (five_cities_tour, [])
  /\
  exists best_length initial_length,
    get_trip_length five_cities_tour (zeros 5) = Ok best_length
    /\ get_trip_length five_cities_tour (zeros 5) = Ok initial_length
    /\ (best_length <= initial_length)%R.
Proof.
  split; [exact five_cities_run|].
  assert (Hvalid : valid_tour 5 five_cities_tour).
  { repeat split. apply Permutation_refl. }
  pose proof (proj1 (optimize_route_never_longer 5 five_cities_tour (zeros 5)
                       50 2 1 Hvalid (square_zeros 5) ltac:(lia))
                [0; 1; 5; 0; 1; 5]) as H.
  rewrite five_cities_run in H. exact H.
Defined.

(** ** Schedule parameters *)

Section ScheduleParameters.

Lemma swap_cities_short_route (route : Route) (t : tape) :
  (length route <= 3)%nat -> swap_cities route t = Raise ValueError.
Proof.
  intros Hlen. unfold swap_cities, bindR, randint.
  now rewrite (proj2 (Z.leb_le (Z.of_nat (length route) - 1) 2)) by lia.
Qed.

Lemma trial_short_route (distances : matrix) (dt : R) (st : state) (t : tape) :
  (length (current_route st) <= 3)%nat ->
  trial distances dt st t = Raise ValueError.
Proof.
  intros Hlen. unfold trial, bindR.
  now rewrite swap_cities_short_route.
Qed.

End ScheduleParameters.

(** C4 (amended). [optimize_route] does not check its schedule parameters.
    Once the length of the initial route is computed: a trial count of 1
    raises ZeroDivisionError where the temperature step is computed, before
    the loop; a trial count of 0 or less runs no trial and returns the
    initial route with the tape untouched; with a trial count of at least
    2, a route of at most three entries, the empty route among them, raises
    ValueError in the first trial, where [swap_cities] asks for a position
    from an empty range. *)
Theorem optimize_route_unchecked_parameters (route : Route)
  (distances : matrix) (initial_temperature : R) (trials : Z)
  (final_temperature : R) (t : tape) (initial_length : R) :
  get_trip_length route distances = Ok initial_length ->
  (trials = 1 ->
   optimize_route route distances initial_temperature trials
     final_temperature t = Raise ZeroDivisionError)
  /\
  (trials <= 0 ->
   optimize_route route distances initial_temperature trials
     final_temperature t = Ok (route, t))
  /\
  (2 <= trials -> (length route <= 3)%nat ->
   (forall dt st, current_route st = route ->
                  trial distances dt st t = Raise ValueError)
   /\ optimize_route route distances initial_temperature trials
        final_temperature t = Raise ValueError).
Proof.
  intros Hinit. rewrite optimize_route_unfold. unfold initial_state.
  rewrite Hinit. cbn [bind]. unfold temperature_step.
  split; [|split].
  - intros ->. reflexivity.
  - intros Hle. rewrite (proj2 (Z.eqb_neq (trials - 1) 0)) by lia.
    replace (Z.to_nat trials) with 0%nat by lia. reflexivity.
  - intros Hge Hlen. split.
    + intros dt st Hst. apply trial_short_route. now rewrite Hst.
    + rewrite (proj2 (Z.eqb_neq (trials - 1) 0)) by lia.
      destruct (Z.to_nat trials) as [|n] eqn:Hn; [lia|].
      cbn [run_trials]. unfold bindR.
      now rewrite trial_short_route.
Qed.

(** With the tour of five cities a trial count of 1 raises
    ZeroDivisionError and a trial count of 0 returns the tour; with the
    empty route and an empty matrix a trial count of 2 raises ValueError. *)
Lemma optimize_route_unchecked_parameters_witness :
  optimize_route five_cities_tour (zeros 5) 50 1 1 [] = Raise ZeroDivisionError
  /\ optimize_route five_cities_tour (zeros 5) 50 0 1 [] = Ok (five_cities_tour, [])
  /\ optimize_route [] [] 50 2 1 [0; 1] = Raise ValueError.
Proof.
  split; [|split].
  - apply (optimize_route_unchecked_parameters five_cities_tour (zeros 5)
             50 1 1 [] five_zero_edges eq_refl). reflexivity.
  - apply (optimize_route_unchecked_parameters five_cities_tour (zeros 5)
             50 0 1 [] five_zero_edges eq_refl). lia.
  - apply (optimize_route_unchecked_parameters [] [] 50 2 1 [0; 1] 0%R eq_refl);
      cbn [length]; lia.
Defined.

(** C4 as stated fails: a trial count of 1 surfaces as the unguarded
    ZeroDivisionError, a trial count of 0 is not rejected at all, and the
    empty route is rejected only by the ValueError of the random draw in
    the first trial. *)
Lemma schedule_parameters_not_rejected :
  optimize_route five_cities_tour (zeros 5) 50 1 1 [0; 1; 5]
  = Raise ZeroDivisionError
  /\ optimize_route five_cities_tour (zeros 5) 50 0 1 [0; 1; 5]
     = Ok (five_cities_tour, [0; 1; 5])
  /\ optimize_route [] [] 50 2 1 [0; 1; 5] = Raise ValueError.
Proof.
  repeat split; reflexivity.
Qed.

(* ================================================================== *)
(** * Further properties of the program *)
(* ================================================================== *)

(** ** Indices, edges and the length of a trip *)

Section TripLength.

Lemma index_in_bounds (A : Type) (l : list A) (a : Z) (d : A) :
  in_bounds (length l) a -> index l a = Ok (nth (wrap (length l) a) l d).
Proof.
  unfold in_bounds, wrap, index. intros Ha.
  rewrite (proj2 (Z.ltb_ge a (- Z.of_nat (length l)))) by lia.
  rewrite (proj2 (Z.leb_gt (Z.of_nat (length l)) a)) by lia. cbn [orb].
  rewrite (nth_error_nth' l d); [reflexivity|].
  destruct (Z.ltb_spec a 0); lia.
Qed.

Lemma index_out_of_bounds (A : Type) (l : list A) (a : Z) :
  ~ in_bounds (length l) a -> index l a = Raise IndexError.
Proof.
  unfold in_bounds, index. intros Ha.
  destruct (Z.ltb_spec a (- Z.of_nat (length l))); [reflexivity|].
  destruct (Z.leb_spec (Z.of_nat (length l)) a); [reflexivity|]. lia.
Qed.

Lemma wrap_lt (N : nat) (a : Z) : in_bounds N a -> (wrap N a < N)%nat.
Proof.
  unfold in_bounds, wrap. intros Ha. destruct (Z.ltb_spec a 0); lia.
Qed.

Lemma matrix_at_in_bounds (N : nat) (distances : matrix) (a b : Z) :
  square N distances -> in_bounds N a -> in_bounds N b ->
  matrix_at distances a b = Ok (mget distances (wrap N a) (wrap N b)).
Proof.
  intros [Hrows Hcols] Ha Hb. unfold matrix_at, mget.
  rewrite <- Hrows in Ha |- *.
  rewrite (index_in_bounds _ distances a []) by exact Ha. cbn [bind].
  rewrite Hrows in Ha |- *.
  pose proof (Hcols _ (wrap_lt N a Ha)) as Hrow.
  rewrite <- Hrow in Hb.
  rewrite (index_in_bounds _ _ b 0%R) by exact Hb.
  now rewrite Hrow.
Qed.

Lemma matrix_at_out_of_bounds (N : nat) (distances : matrix) (a b : Z) :
  square N distances -> ~ in_bounds N a \/ ~ in_bounds N b ->
  matrix_at distances a b = Raise IndexError.
Proof.
  intros [Hrows Hcols] Hab. unfold matrix_at.
  assert (Hdec : in_bounds N a \/ ~ in_bounds N a) by (unfold in_bounds; lia).
  destruct Hdec as [Ha|Ha].
  - destruct Hab as [Hab|Hb]; [contradiction|].
    rewrite <- Hrows in Ha.
    rewrite (index_in_bounds _ distances a []) by exact Ha. cbn [bind].
    rewrite Hrows in Ha |- *.
    apply index_out_of_bounds. now rewrite (Hcols _ (wrap_lt N a Ha)).
  - rewrite index_out_of_bounds; [reflexivity|]. now rewrite Hrows.
Qed.

Lemma trip_from_in_bounds (N : nat) (distances : matrix) (route : Route)
  (sum : R) :
  square N distances -> Forall (in_bounds N) route ->
  trip_from route distances sum = Ok (edge_sum N distances route sum).
Proof.
  intros Hsq. revert sum. induction route as [|a route IH]; intros sum Hall.
  - reflexivity.
  - inversion Hall as [|? ? Ha Hrest]; subst.
    destruct route as [|b route]; [reflexivity|].
    inversion Hrest as [|? ? Hb _]; subst.
    cbn [trip_from edge_sum].
    rewrite (matrix_at_in_bounds N) by assumption. cbn [bind].
    now apply IH.
Qed.

Lemma trip_from_out_of_bounds (N : nat) (distances : matrix) (route : Route)
  (sum : R) :
  square N distances -> (2 <= length route)%nat ->
  Exists (fun a => ~ in_bounds N a) route ->
  trip_from route distances sum = Raise IndexError.
Proof.
  intros Hsq. revert sum. induction route as [|a route IH]; intros sum Hlen Hbad.
  - inversion Hbad.
  - destruct route as [|b route]; [cbn [length] in Hlen; lia|].
    cbn [trip_from].
    assert (Hdec : (in_bounds N a /\ in_bounds N b)
                   \/ (~ in_bounds N a \/ ~ in_bounds N b))
      by (unfold in_bounds; lia).
    destruct Hdec as [[Ha Hb]|Hab].
    + rewrite (matrix_at_in_bounds N) by assumption. cbn [bind].
      inversion Hbad as [? ? H|? ? H]; subst; [contradiction|].
      apply IH; [|exact H].
      inversion H as [? ? H'|? ? H']; subst; [contradiction|].
      destruct route; [inversion H'|cbn [length]; lia].
    + now rewrite (matrix_at_out_of_bounds N).
Qed.

Lemma edge_sum_grows (N : nat) (distances : matrix) (route : Route) (sum : R) :
  (forall i j, (i < N)%nat -> (j < N)%nat -> (0 <= mget distances i j)%R) ->
  Forall (in_bounds N) route ->
  (sum <= edge_sum N distances route sum)%R.
Proof.
  intros Hpos. revert sum. induction route as [|a route IH]; intros sum Hall.
  - cbn. lra.
  - inversion Hall as [|? ? Ha Hrest]; subst.
    destruct route as [|b route]; [cbn; lra|].
    inversion Hrest as [|? ? Hb _]; subst.
    change (edge_sum N distances (a :: b :: route) sum)
      with (edge_sum N distances (b :: route)
              (sum + mget distances (wrap N a) (wrap N b))).
    pose proof (Hpos _ _ (wrap_lt N a Ha) (wrap_lt N b Hb)).
    pose proof (IH (sum + mget distances (wrap N a) (wrap N b))%R Hrest).
    lra.
Qed.

End TripLength.

(** X1. [get_trip_length] on an N x N matrix: a route of fewer than two
    entries has length 0 whatever it holds; a longer route whose entries all
    lie from -N to N-1 has the sum of its edges as length, a negative entry
    standing for the position counted from the end; and a longer route with
    an entry outside that range raises IndexError. *)
Theorem get_trip_length_bounds (N : nat) (distances : matrix) (route : Route) :
  square N distances ->
  ((length route <= 1)%nat -> get_trip_length route distances = Ok 0%R)
  /\
  (Forall (in_bounds N) route ->
   get_trip_length route distances = Ok (edge_sum N distances route 0))
  /\
  ((2 <= length route)%nat -> Exists (fun a => ~ in_bounds N a) route ->
   get_trip_length route distances = Raise IndexError).
Proof.
  intros Hsq. unfold get_trip_length. split; [|split].
  - intros Hlen. destruct route as [|a [|b route]]; try reflexivity.
    cbn [length] in Hlen. lia.
  - now apply trip_from_in_bounds.
  - now apply trip_from_out_of_bounds.
Qed.

(** On the 2 x 2 matrix with the entries 0, 1, 2, 3: the route -1, 0 takes
    the entry of the last row and first column, and the route 0, 2 raises. *)
Lemma get_trip_length_bounds_witness :
  get_trip_length [-1; 0] [[0; 1]; [2; 3]]%R = Ok (0 + 2)%R
  /\ get_trip_length [0; 2] [[0; 1]; [2; 3]]%R = Raise IndexError.
Proof.
  assert (Hsq : square 2 [[0; 1]; [2; 3]]%R).
  { split; [reflexivity|]. intros [|[|i]] Hi; try reflexivity. lia. }
  destruct (get_trip_length_bounds 2 [[0; 1]; [2; 3]]%R [-1; 0] Hsq)
    as (_ & Hin & _).
  destruct (get_trip_length_bounds 2 [[0; 1]; [2; 3]]%R [0; 2] Hsq)
    as (_ & _ & Hout).
  split.
  - apply Hin. repeat constructor; unfold in_bounds; cbn; lia.
  - apply Hout; [cbn; lia|].
    apply Exists_cons_tl, Exists_cons_hd. unfold in_bounds. cbn. lia.
Defined.

(** ** The matrix of distances as a metric *)

Section Metric.


Lemma calculate_distances_entry (cities : list city) (i j : nat) :
  (i < length cities)%nat -> (j < length cities)%nat ->
  mget (calculate_distances cities) i j = euclidean cities i j.
Proof.
  intros Hi Hj. destruct (calculate_distances_filled cities) as [_ H].
  now apply H.
Qed.

Lemma euclidean_nonneg (cities : list city) (i j : nat) :
  (0 <= euclidean cities i j)%R.
Proof. apply sqrt_pos. Qed.

End Metric.





(** X4. With the matrix of [calculate_distances], every route whose
    entries are indices of cities (counted from the front or from the end)
    has a length, and the length is not negative. *)
Theorem trip_length_not_negative (cities : list city) (route : Route) :
  Forall (in_bounds (length cities)) route ->
  exists total,
    get_trip_length route (calculate_distances cities) = Ok total
    /\ (0 <= total)%R.
Proof.
  intros Hall.
  destruct (calculate_distances_filled cities) as [Hsq _].
  exists (edge_sum (length cities) (calculate_distances cities) route 0).
  split.
  - unfold get_trip_length. now apply trip_from_in_bounds.
  - apply edge_sum_grows; [|exact Hall].
    intros i j Hi Hj. rewrite calculate_distances_entry by assumption.
    apply euclidean_nonneg.
Qed.

Lemma trip_length_not_negative_witness :
  exists total,
    get_trip_length [0; -1; 0] (calculate_distances [(0, 0); (3, 4)]%R)
    = Ok total /\ (0 <= total)%R.
Proof.
  apply (trip_length_not_negative [(0, 0); (3, 4)]%R [0; -1; 0]).
  repeat constructor; unfold in_bounds; cbn; lia.
Defined.

(** ** More on the perturbation *)

Section SwapMore.

Lemma positions_app_front (A : Type) (l1 l2 : list A) :
  positions (l1 ++ l2) 0 (Z.of_nat (length l1)) = l1.
Proof.
  unfold positions. rewrite Z.sub_0_r, Nat2Z.id. cbn [Z.to_nat skipn].
  rewrite firstn_app, Nat.sub_diag, firstn_all. cbn [firstn].
  apply app_nil_r.
Qed.

Lemma positions_app_middle (A : Type) (l1 l2 l3 : list A) :
  positions (l1 ++ l2 ++ l3) (Z.of_nat (length l1))
    (Z.of_nat (length l1) + Z.of_nat (length l2)) = l2.
Proof.
  unfold positions. rewrite Nat2Z.id.
  replace (Z.of_nat (length l1) + Z.of_nat (length l2) - Z.of_nat (length l1))
    with (Z.of_nat (length l2)) by lia.
  rewrite Nat2Z.id, skipn_app, Nat.sub_diag, skipn_all. cbn [skipn app].
  rewrite firstn_app, Nat.sub_diag, firstn_all. cbn [firstn].
  apply app_nil_r.
Qed.

Lemma positions_app_back (A : Type) (l1 l2 l3 : list A) :
  positions (l1 ++ l2 ++ l3) (Z.of_nat (length l1) + Z.of_nat (length l2))
    (Z.of_nat (length (l1 ++ l2 ++ l3))) = l3.
Proof.
  unfold positions. rewrite !length_app.
  replace (Z.to_nat (Z.of_nat (length l1) + Z.of_nat (length l2)))
    with (length (l1 ++ l2)) by (rewrite length_app; lia).
  replace (Z.to_nat
             (Z.of_nat (length l1 + (length l2 + length l3))
              - (Z.of_nat (length l1) + Z.of_nat (length l2))))
    with (length l3) by lia.
  rewrite app_assoc, skipn_app, Nat.sub_diag, skipn_all. cbn [skipn app].
  apply firstn_all.
Qed.

(** Reversing the same positions of the result gives the route back. *)
Lemma reverse_between_twice (route : Route) (city1 city2 : Z) :
  2 <= city1 -> city1 < city2 -> city2 < Z.of_nat (length route) - 1 ->
  reverse_between (reverse_between route city1 city2) city1 city2 = route.
Proof.
  intros H1 H12 H2.
  pose proof (positions_split route (city1 - 1) (city2 + 1)
                ltac:(lia) ltac:(lia)) as Hsplit.
  pose proof (length_positions route 0 (city1 - 1) ltac:(lia) ltac:(lia)) as HP.
  pose proof (length_positions route (city1 - 1) (city2 + 1)
                ltac:(lia) ltac:(lia)) as HS.
  assert (Hinner : reverse_between route city1 city2
                   = positions route 0 (city1 - 1)
                     ++ rev (positions route (city1 - 1) (city2 + 1))
                     ++ positions route (city2 + 1) (Z.of_nat (length route)))
    by reflexivity.
  set (P := positions route 0 (city1 - 1)) in *.
  set (S := positions route (city1 - 1) (city2 + 1)) in *.
  set (T := positions route (city2 + 1) (Z.of_nat (length route))) in *.
  assert (HS' : length (rev S) = Z.to_nat (city2 + 1 - (city1 - 1)))
    by now rewrite length_rev.
  rewrite Hinner. unfold reverse_between.
  replace (city1 - 1) with (Z.of_nat (length P)) by lia.
  replace (city2 + 1) with (Z.of_nat (length P) + Z.of_nat (length (rev S)))
    by lia.
  rewrite positions_app_front, positions_app_middle, positions_app_back.
  rewrite rev_involutive. now symmetry.
Qed.

Lemma length_reverse_between (route : Route) (city1 city2 : Z) :
  2 <= city1 -> city1 < city2 -> city2 < Z.of_nat (length route) - 1 ->
  length (reverse_between route city1 city2) = length route.
Proof.
  intros H1 H12 H2.
  destruct (reverse_between_parts route city1 city2 H1 H12 H2)
    as (first & before & segment & after & final & Hroute & ->).
  rewrite Hroute. rewrite !length_app, length_rev. reflexivity.
Qed.

Lemma swap_cities_four_entries (route : Route) (t : tape) :
  length route = 4%nat -> swap_cities route t = OutOfDraws.
Proof.
  intros Hlen. unfold swap_cities, bindR, randint. rewrite Hlen.
  cbn [Z.of_nat Pos.of_succ_nat Pos.succ Z.sub Z.add Z.opp Z.pos_sub
         Pos.pred_double Z.leb Z.compare Pos.compare Pos.compare_cont].
  destruct t as [|draw t]; [reflexivity|].
  rewrite choose_city2_all_same; [reflexivity | lia |].
  apply Forall_forall. intros d _. unfold randint_value.
  change (3 - 2) with 1. now rewrite !Z.mod_1_r.
Qed.

(** A call of [swap_cities] that returns has reversed positions inside the
    route, whatever the route. *)
Lemma swap_cities_returned (route new_route : Route) (t t1 : tape) :
  swap_cities route t = Ok (new_route, t1) ->
  exists city1 city2,
    2 <= city1 /\ city1 < city2 /\ city2 < Z.of_nat (length route) - 1
    /\ new_route = reverse_between route city1 city2.
Proof.
  intros Hswap.
  destruct (Z.le_gt_cases (Z.of_nat (length route) - 1) 2) as [Hshort|Hlong].
  - rewrite swap_cities_short_route in Hswap by lia. discriminate.
  - pose proof (swap_cities_cases route t ltac:(lia)) as H.
    now rewrite Hswap in H.
Qed.

Lemma swap_cities_raised (route : Route) (t : tape) (e : exn) :
  swap_cities route t = Raise e ->
  e = ValueError /\ (length route <= 3)%nat.
Proof.
  intros Hswap.
  destruct (Z.le_gt_cases (Z.of_nat (length route) - 1) 2) as [Hshort|Hlong].
  - rewrite swap_cities_short_route in Hswap by lia.
    injection Hswap as <-. split; [reflexivity|lia].
  - pose proof (swap_cities_cases route t ltac:(lia)) as H.
    rewrite Hswap in H. contradiction.
Qed.

Lemma reverse_between_same_cities (route : Route) (city1 city2 : Z) :
  2 <= city1 -> city1 < city2 -> city2 < Z.of_nat (length route) - 1 ->
  same_cities route (reverse_between route city1 city2).
Proof.
  intros H1 H12 H2.
  destruct (reverse_between_parts route city1 city2 H1 H12 H2)
    as (first & before & segment & after & final & Hroute & ->).
  rewrite Hroute. split; [|split].
  - apply Permutation_app_head, Permutation_app_tail.
    symmetry. apply Permutation_rev.
  - reflexivity.
  - now rewrite !last_of_parts.
Qed.

Lemma same_cities_refl (route : Route) : same_cities route route.
Proof. split; [apply Permutation_refl|split; reflexivity]. Qed.

Lemma same_cities_trans (r1 r2 r3 : Route) :
  same_cities r1 r2 -> same_cities r2 r3 -> same_cities r1 r3.
Proof.
  intros (P12 & H12 & L12) (P23 & H23 & L23). split; [|split].
  - eapply Permutation_trans; eassumption.
  - congruence.
  - congruence.
Qed.

(** A route that visits the cities of a valid tour is a valid tour. *)
Lemma same_cities_valid_tour (N : nat) (route r : Route) :
  valid_tour N route -> same_cities route r -> valid_tour N r.
Proof.
  intros (Hlen & Hclosed & Hperm) (HP & Hhd & Hlast).
  assert (Hlen' : length r = S N) by now rewrite (Permutation_length HP).
  split; [exact Hlen'|]. split; [congruence|].
  assert (Hne : route <> []) by (intros ->; discriminate).
  assert (Hne' : r <> []) by (intros ->; discriminate).
  rewrite (app_removelast_last 0 Hne) in HP.
  rewrite (app_removelast_last 0 Hne') in HP.
  rewrite Hlast in HP. apply Permutation_app_inv_r in HP.
  rewrite !removelast_firstn_len, Hlen, Hlen' in HP. cbn [Nat.pred] in HP.
  eapply Permutation_trans; eassumption.
Qed.

End SwapMore.

(** X5. The small routes of [swap_cities]: with at most three entries the
    call raises ValueError on every tape, the range of positions being
    empty; with exactly four entries the only position is 2, no second
    draw can differ from it, and the call returns on no tape, however
    long. *)
Theorem swap_cities_small_routes (route : Route) (t : tape) :
  ((length route <= 3)%nat -> swap_cities route t = Raise ValueError)
  /\ (length route = 4%nat -> swap_cities route t = OutOfDraws).
Proof.
  split.
  - apply swap_cities_short_route.
  - apply swap_cities_four_entries.
Qed.

Lemma swap_cities_small_routes_witness :
  swap_cities [0; 1; 2; 0] [0; 1; 2; 3; 4; 5] = OutOfDraws
  /\ swap_cities [0; 1; 0] [0; 1; 2; 3; 4; 5] = Raise ValueError.
Proof.
  split.
  - apply (swap_cities_small_routes [0; 1; 2; 0]). reflexivity.
  - apply (swap_cities_small_routes [0; 1; 0]). cbn. lia.
Defined.

(** X6. [swap_cities] undoes itself: on a route of at least five entries,
    the call with the same draws on the route it has returned gives the
    first route back. *)
Theorem swap_cities_twice (route : Route) (draw1 draw2 : Z)
  (same rest : tape) :
  let high := Z.of_nat (length route) - 1 in
  let t := draw1 :: same ++ draw2 :: rest in
  2 < high ->
  Forall (fun d => randint_value 2 high d = randint_value 2 high draw1) same ->
  randint_value 2 high draw2 <> randint_value 2 high draw1 ->
  exists new_route,
    swap_cities route t = Ok (new_route, rest)
    /\ swap_cities new_route t = Ok (route, rest).
Proof.
  intros high t Hhigh Hsame Hne.
  pose proof (randint_value_range 2 high draw1 Hhigh) as H1.
  pose proof (randint_value_range 2 high draw2 Hhigh) as H2.
  set (city1 := Z.min (randint_value 2 high draw1) (randint_value 2 high draw2)).
  set (city2 := Z.max (randint_value 2 high draw1) (randint_value 2 high draw2)).
  assert (Hlen : length (reverse_between route city1 city2) = length route).
  { apply length_reverse_between; subst city1 city2; fold high; lia. }
  exists (reverse_between route city1 city2). split.
  - apply swap_cities_distinct_draw; assumption.
  - unfold t.
    rewrite (swap_cities_distinct_draw (reverse_between route city1 city2)
               draw1 draw2 same rest);
      rewrite ?Hlen; fold high; try assumption.
    fold city1 city2.
    rewrite reverse_between_twice by (subst city1 city2; fold high; lia).
    reflexivity.
Qed.

Lemma swap_cities_twice_witness :
  swap_cities [0; 1; 2; 3; 4; 0] [0; 1] = Ok ([0; 3; 2; 1; 4; 0], [])
  /\ swap_cities [0; 3; 2; 1; 4; 0] [0; 1] = Ok ([0; 1; 2; 3; 4; 0], []).
Proof.
  destruct (swap_cities_twice [0; 1; 2; 3; 4; 0] 0 1 [] [])
    as (new_route & Hfirst & Hsecond).
  - cbn. lia.
  - constructor.
  - vm_compute. discriminate.
  - cbn [app] in Hfirst, Hsecond.
    assert (Hnew : new_route = [0; 3; 2; 1; 4; 0]).
    { change (swap_cities [0; 1; 2; 3; 4; 0] [0; 1])
        with (@Ok (Route * tape) ([0; 3; 2; 1; 4; 0], [])) in Hfirst.
      now injection Hfirst. }
    subst new_route. split; [exact Hfirst | exact Hsecond].
Defined.

(** ** The random route *)

Section RandomRoute.

Lemma length_exchange (x : list Z) (i j : nat) :
  length (exchange x i j) = length x.
Proof.
  unfold exchange. now rewrite !length_set_nth.
Qed.

Lemma count_occ_set_nth (l : list Z) (i : nat) (v a : Z) :
  (i < length l)%nat ->
  (count_occ Z.eq_dec (set_nth l i v) a
   + (if Z.eq_dec (nth i l 0%Z) a then 1 else 0)
   = count_occ Z.eq_dec l a + (if Z.eq_dec v a then 1 else 0))%nat.
Proof.
  revert i. induction l as [|b l IH]; intros [|i] Hi; cbn [length] in Hi;
    try lia.
  - cbn [set_nth nth count_occ].
    destruct (Z.eq_dec v a), (Z.eq_dec b a); lia.
  - cbn [set_nth nth count_occ]. specialize (IH i ltac:(lia)).
    destruct (Z.eq_dec b a); lia.
Qed.

Lemma exchange_permutation (x : list Z) (i j : nat) :
  (i < length x)%nat -> (j < length x)%nat -> Permutation (exchange x i j) x.
Proof.
  intros Hi Hj. apply (Permutation_count_occ Z.eq_dec). intros a.
  unfold exchange.
  pose proof (count_occ_set_nth x i (nth j x 0) a Hi) as H1.
  pose proof (count_occ_set_nth (set_nth x i (nth j x 0)) j (nth i x 0) a
                ltac:(now rewrite length_set_nth)) as H2.
  assert (Hj' : nth j (set_nth x i (nth j x 0)) 0 = nth j x 0).
  { destruct (Nat.eq_dec j i) as [->|Hne].
    - now apply nth_set_nth_same.
    - now apply nth_set_nth_other. }
  rewrite Hj' in H2. lia.
Qed.

Lemma shuffle_from_permutation (i : nat) (x : list Z) (t : tape) :
  (i < length x)%nat -> (i <= length t)%nat ->
  exists x', shuffle_from i x t = Ok (x', skipn i t) /\ Permutation x' x.
Proof.
  revert x t. induction i as [|i IH]; intros x t Hx Ht.
  - exists x. split; [reflexivity|apply Permutation_refl].
  - destruct t as [|draw t]; [cbn [length] in Ht; lia|].
    cbn [shuffle_from skipn].
    set (j := Z.to_nat (draw mod Z.of_nat (S (S i)))).
    assert (Hj : (j < length x)%nat).
    { pose proof (Z.mod_pos_bound draw (Z.of_nat (S (S i))) ltac:(lia)).
      unfold j. lia. }
    destruct (IH (exchange x (S i) j) t) as (x' & Hrun & Hperm).
    + rewrite length_exchange. lia.
    + cbn [length] in Ht. lia.
    + exists x'. split; [exact Hrun|].
      eapply Permutation_trans; [exact Hperm|].
      now apply exchange_permutation.
Qed.

Lemma shuffle_from_short_tape (i : nat) (x : list Z) (t : tape) :
  (length t < i)%nat -> shuffle_from i x t = OutOfDraws.
Proof.
  revert x t. induction i as [|i IH]; intros x t Ht; [lia|].
  destruct t as [|draw t]; [reflexivity|].
  cbn [shuffle_from]. apply IH. cbn [length] in Ht. lia.
Qed.

(** A shuffled array with its first entry repeated at the end is a tour. *)
Lemma closed_permutation_is_tour (N : nat) (rand : list Z) :
  (1 <= N)%nat -> Permutation rand (map Z.of_nat (seq 0 N)) ->
  valid_tour N (rand ++ [nth 0 rand 0]).
Proof.
  intros HN Hperm.
  assert (Hlen : length rand = N).
  { rewrite (Permutation_length Hperm), length_map. apply length_seq. }
  split; [|split].
  - rewrite length_app, Hlen. cbn. lia.
  - rewrite last_last. destruct rand; [cbn in Hlen; lia|reflexivity].
  - rewrite firstn_app.
    replace (N - length rand)%nat with 0%nat by lia.
    rewrite firstn_all2 by lia. cbn [firstn].
    now rewrite app_nil_r.
Qed.

Lemma create_random_route_no_city (cities : list city) (t : tape) :
  length cities = 0%nat -> create_random_route cities t = Raise IndexError.
Proof.
  unfold create_random_route, permutation, bindR. intros ->. reflexivity.
Qed.

Lemma create_random_route_returns (cities : list city) (t : tape) :
  (1 <= length cities)%nat -> (length cities - 1 <= length t)%nat ->
  exists route,
    create_random_route cities t = Ok (route, skipn (length cities - 1) t)
    /\ valid_tour (length cities) route.
Proof.
  unfold create_random_route, permutation, bindR. intros HN Ht.
  destruct (shuffle_from_permutation (length cities - 1)
              (map Z.of_nat (seq 0 (length cities))) t)
    as (rand & Hrun & Hperm).
  - rewrite length_map, length_seq. lia.
  - exact Ht.
  - rewrite Hrun.
    assert (Hlen : length rand = length cities).
    { rewrite (Permutation_length Hperm), length_map. apply length_seq. }
    unfold lift. rewrite (index_in_range _ rand 0 0) by lia.
    unfold ret. cbn [Z.to_nat]. eexists. split; [reflexivity|].
    now apply closed_permutation_is_tour.
Qed.

Lemma create_random_route_short_tape (cities : list city) (t : tape) :
  (length t < length cities - 1)%nat ->
  create_random_route cities t = OutOfDraws.
Proof.
  unfold create_random_route, permutation, bindR. intros Ht.
  now rewrite shuffle_from_short_tape.
Qed.

End RandomRoute.

(** X7. [create_random_route]: without cities the call raises IndexError,
    the shuffled array having no first entry; with N >= 1 cities and at
    least N-1 draws on the tape it consumes exactly N-1 draws and returns a
    valid tour of the N cities, a permutation of 0..N-1 closed by its first
    entry; with fewer draws it is still drawing when the tape ends. *)
Theorem create_random_route_tour (cities : list city) (t : tape) :
  (length cities = 0%nat -> create_random_route cities t = Raise IndexError)
  /\
  ((1 <= length cities)%nat -> (length cities - 1 <= length t)%nat ->
   exists route,
     create_random_route cities t = Ok (route, skipn (length cities - 1) t)
     /\ valid_tour (length cities) route)
  /\
  ((length t < length cities - 1)%nat ->
   create_random_route cities t = OutOfDraws).
Proof.
  split; [|split].
  - apply create_random_route_no_city.
  - apply create_random_route_returns.
  - apply create_random_route_short_tape.
Qed.

(** Four cities and the draws 5, 1, 0: the positions 3, 2 and 1 are
    exchanged with the positions 1, 1 and 0, the tour is 2, 0, 3, 1, 2 and
    no draw is left. *)
Lemma create_random_route_tour_witness :
  create_random_route [(0, 0); (0, 1); (1, 1); (1, 0)]%R [5; 1; 0]
  = Ok ([2; 0; 3; 1; 2], [])
  /\ valid_tour 4 [2; 0; 3; 1; 2].
Proof.
  destruct (create_random_route_tour
              [(0, 0); (0, 1); (1, 1); (1, 0)]%R [5; 1; 0])
    as (_ & H & _).
  destruct H as (route & Hrun & Hvalid); [cbn; lia | cbn; lia |].
  change (create_random_route [(0, 0); (0, 1); (1, 1); (1, 0)]%R [5; 1; 0])
    with (@Ok (Route * tape) ([2; 0; 3; 1; 2], [])) in Hrun.
  injection Hrun as <-. split; [reflexivity | exact Hvalid].
Defined.

(** ** More on the annealing loop *)

Section AnnealMore.

Variable distances : matrix.
Variable dt : R.

(** What a trial that ends has done. *)
Lemma trial_inversion (st st' : state) (t t' : tape) :
  trial distances dt st t = Ok (st', t') ->
  exists new_route t1 new_length,
    swap_cities (current_route st) t = Ok (new_route, t1)
    /\ get_trip_length new_route distances = Ok new_length
    /\ (((new_length < current_length st)%R
         /\ t' = t1
         /\ current_route st' = new_route
         /\ current_length st' = new_length
         /\ ((new_length < shortest_length st)%R
             /\ best_route st' = new_route
             /\ shortest_length st' = new_length
             \/ ~ (new_length < shortest_length st)%R
                /\ best_route st' = best_route st
                /\ shortest_length st' = shortest_length st))
        \/
        (~ (new_length < current_length st)%R
         /\ (exists draw, t1 = draw :: t')
         /\ best_route st' = best_route st
         /\ shortest_length st' = shortest_length st
         /\ (current_route st' = new_route
             /\ current_length st' = new_length
             \/ current_route st' = current_route st
                /\ current_length st' = current_length st))).
Proof.
  intros Htrial.
  destruct (trial_candidate _ _ _ _ _ _ Htrial)
    as (new_route & t1 & new_length & Hswap & Hlen).
  exists new_route, t1, new_length. split; [exact Hswap|]. split; [exact Hlen|].
  destruct (Rlt_dec new_length (current_length st)) as [Hlt|Hge].
  - left. rewrite (trial_shorter _ _ _ _ _ _ _ Hswap Hlen Hlt) in Htrial.
    injection Htrial as <- <-. cbn [current_route current_length best_route
                                     shortest_length].
    repeat (split; [first [exact Hlt | reflexivity]|]).
    unfold Rltb. destruct (Rlt_dec new_length (shortest_length st));
      [left|right]; repeat split; assumption.
  - right. rewrite (trial_not_shorter _ _ _ _ _ _ _ Hswap Hlen Hge) in Htrial.
    destruct t1 as [|draw t2]; [discriminate|].
    destruct (Rltb (uniform_value draw) _);
      injection Htrial as <- <-;
      cbn [current_route current_length best_route shortest_length];
      (split; [exact Hge|]); (split; [now exists draw|]);
      (split; [reflexivity|]); (split; [reflexivity|]);
      [left|right]; split; reflexivity.
Qed.

Lemma trial_same_cities (route : Route) (st st' : state) (t t' : tape) :
  same_cities route (current_route st) /\ same_cities route (best_route st) ->
  trial distances dt st t = Ok (st', t') ->
  same_cities route (current_route st')
  /\ same_cities route (best_route st').
Proof.
  intros [Hcur Hbest] Htrial.
  destruct (trial_inversion _ _ _ _ Htrial)
    as (new_route & t1 & new_length & Hswap & _ & Hcases).
  assert (Hnew : same_cities route new_route).
  { destruct (swap_cities_returned _ _ _ _ Hswap)
      as (c1 & c2 & H1 & H12 & H2 & ->).
    eapply same_cities_trans; [exact Hcur|].
    now apply reverse_between_same_cities. }
  destruct Hcases as [(_ & _ & -> & _ & [(_ & -> & _)|(_ & -> & _)])
                     |(_ & _ & -> & _ & [(-> & _)|(-> & _)])];
    split; assumption.
Qed.

Lemma trial_lengths_cached (st st' : state) (t t' : tape) :
  get_trip_length (current_route st) distances = Ok (current_length st)
  /\ get_trip_length (best_route st) distances = Ok (shortest_length st) ->
  trial distances dt st t = Ok (st', t') ->
  get_trip_length (current_route st') distances = Ok (current_length st')
  /\ get_trip_length (best_route st') distances = Ok (shortest_length st').
Proof.
  intros [Hcur Hbest] Htrial.
  destruct (trial_inversion _ _ _ _ Htrial)
    as (new_route & t1 & new_length & _ & Hlen & Hcases).
  destruct Hcases
    as [(_ & _ & -> & -> & [(_ & -> & ->)|(_ & -> & ->)])
       |(_ & _ & -> & -> & [(-> & ->)|(-> & ->)])];
    split; assumption.
Qed.

(** The best route is the first route, or a measured route strictly
    shorter than [bound]. *)
Lemma trial_first_or_shorter (route : Route) (bound : R) (st st' : state)
  (t t' : tape) :
  (best_route st = route /\ shortest_length st = bound
   \/ get_trip_length (best_route st) distances = Ok (shortest_length st)
      /\ (shortest_length st < bound)%R) ->
  trial distances dt st t = Ok (st', t') ->
  best_route st' = route /\ shortest_length st' = bound
  \/ get_trip_length (best_route st') distances = Ok (shortest_length st')
     /\ (shortest_length st' < bound)%R.
Proof.
  intros Hinv Htrial.
  destruct (trial_inversion _ _ _ _ Htrial)
    as (new_route & t1 & new_length & _ & Hlen & Hcases).
  destruct Hcases
    as [(_ & _ & _ & _ & [(Hlt & -> & ->)|(_ & -> & ->)])
       |(_ & _ & -> & -> & _)]; try exact Hinv.
  right. split; [exact Hlen|]. destruct Hinv as [[_ <-]|[_ H]]; lra.
Qed.

End AnnealMore.

(** What a run of [optimize_route] that returns has gone through. *)
Lemma optimize_route_inversion (route : Route) (distances : matrix)
  (initial_temperature : R) (trials : Z) (final_temperature : R)
  (t t' : tape) (best : Route) :
  optimize_route route distances initial_temperature trials
    final_temperature t = Ok (best, t') ->
  exists initial_length dt st,
    get_trip_length route distances = Ok initial_length
    /\ run_trials distances dt (Z.to_nat trials)
         (mkState initial_temperature route initial_length route
            initial_length) t = Ok (st, t')
    /\ best = best_route st.
Proof.
  rewrite optimize_route_unfold. unfold initial_state.
  destruct (get_trip_length route distances) as [initial_length|e|];
    cbn [bind]; try discriminate.
  destruct (temperature_step initial_temperature trials final_temperature)
    as [dt|e|]; try discriminate.
  destruct (run_trials distances dt (Z.to_nat trials) _ t)
    as [[st t1]|e|] eqn:Hrun; try discriminate.
  intros [= <- <-]. now exists initial_length, dt, st.
Qed.

(** X8. [optimize_route] neither adds nor drops a city: for every route,
    matrix, schedule and tape, a returned route holds the entries of the
    initial route in some order, with the same first and the same last
    entry; when the initial route is a valid tour, so is the returned
    one. *)
Theorem optimize_route_keeps_cities (route : Route) (distances : matrix)
  (initial_temperature : R) (trials : Z) (final_temperature : R)
  (t t' : tape) (best : Route) :
  optimize_route route distances initial_temperature trials
    final_temperature t = Ok (best, t') ->
  Permutation best route
  /\ hd 0 best = hd 0 route
  /\ last best 0 = last route 0
  /\ (forall N, valid_tour N route -> valid_tour N best).
Proof.
  intros Hrun.
  destruct (optimize_route_inversion _ _ _ _ _ _ _ _ Hrun)
    as (initial_length & dt & st & _ & Htrials & ->).
  assert (H : same_cities route (current_route st)
              /\ same_cities route (best_route st)).
  { eapply (run_trials_keeps distances dt
              (fun st => same_cities route (current_route st)
                         /\ same_cities route (best_route st))
              (trial_same_cities distances dt route));
      [|exact Htrials].
    split; apply same_cities_refl. }
  destruct H as [_ Hbest]. pose proof Hbest as (HP & Hhd & Hlast).
  repeat (split; [assumption|]).
  intros N Hvalid. now apply (same_cities_valid_tour N route).
Qed.

(** The run of two trials on the tour of five cities. *)
Lemma optimize_route_keeps_cities_witness :
  optimize_route five_cities_tour (zeros 5) 50 2 1 [0; 1; 5; 0; 1; 5]
  = Ok (five_cities_tour, [])
  /\ Permutation five_cities_tour five_cities_tour
  /\ valid_tour 5 five_cities_tour.
Proof.
  split; [exact five_cities_run|].
  destruct (optimize_route_keeps_cities five_cities_tour (zeros 5) 50 2 1
              [0; 1; 5; 0; 1; 5] [] five_cities_tour five_cities_run)
    as (Hperm & _ & _ & Hvalid).
  split; [exact Hperm|]. apply Hvalid.
  repeat split. apply Permutation_refl.
Defined.

(** X9. The lengths [optimize_route] carries along are the lengths of the
    routes it carries along: in every state the loop reaches,
    [current_length] is what [get_trip_length] gives for the current route
    and [shortest_length] what it gives for the best route. *)
Theorem reachable_lengths_cached (route : Route) (distances : matrix)
  (initial_temperature dt : R) (st : state) :
  reachable route distances initial_temperature dt st ->
  get_trip_length (current_route st) distances = Ok (current_length st)
  /\ get_trip_length (best_route st) distances = Ok (shortest_length st).
Proof.
  induction 1 as [st Hinit|st st' t t' _ IH Htrial].
  - unfold initial_state in Hinit.
    destruct (get_trip_length route distances) eqn:Hlen; try discriminate.
    cbn [bind] in Hinit. injection Hinit as <-. cbn. now split.
  - eapply trial_lengths_cached; eassumption.
Qed.

Lemma reachable_lengths_cached_witness :
  get_trip_length (current_route (five_cities_after_trial 1)) (zeros 5)
  = Ok (current_length (five_cities_after_trial 1))
  /\ get_trip_length (best_route (five_cities_after_trial 1)) (zeros 5)
     = Ok (shortest_length (five_cities_after_trial 1)).
Proof.
  apply (reachable_lengths_cached five_cities_tour (zeros 5) 50 1).
  apply (reachable_trial _ _ _ _ five_cities_state _ [0; 1; 5] []).
  - apply five_cities_reachable.
  - apply five_cities_trial.
Defined.

(** X10. [optimize_route] gives up the initial route only for a strictly
    shorter one: a returned route is the initial route itself, or its
    length is strictly below the length of the initial route. *)
Theorem optimize_route_first_or_shorter (route : Route) (distances : matrix)
  (initial_temperature : R) (trials : Z) (final_temperature : R)
  (t t' : tape) (best : Route) :
  optimize_route route distances initial_temperature trials
    final_temperature t = Ok (best, t') ->
  best = route
  \/ exists best_length initial_length,
       get_trip_length best distances = Ok best_length
       /\ get_trip_length route distances = Ok initial_length
       /\ (best_length < initial_length)%R.
Proof.
  intros Hrun.
  destruct (optimize_route_inversion _ _ _ _ _ _ _ _ Hrun)
    as (initial_length & dt & st & Hinit & Htrials & ->).
  assert (H : best_route st = route /\ shortest_length st = initial_length
              \/ get_trip_length (best_route st) distances
                 = Ok (shortest_length st)
                 /\ (shortest_length st < initial_length)%R).
  { eapply (run_trials_keeps distances dt
              (fun st => best_route st = route
                         /\ shortest_length st = initial_length
                         \/ get_trip_length (best_route st) distances
                            = Ok (shortest_length st)
                            /\ (shortest_length st < initial_length)%R)
              (trial_first_or_shorter distances dt route initial_length));
      [|exact Htrials].
    left. split; reflexivity. }
  destruct H as [[H _]|[Hlen Hlt]]; [now left|right].
  now exists (shortest_length st), initial_length.
Qed.

(** The run of two trials on the tour of five cities returns the tour it
    started from: no candidate was strictly shorter. *)
Lemma optimize_route_first_or_shorter_witness :
  optimize_route five_cities_tour (zeros 5) 50 2 1 [0; 1; 5; 0; 1; 5]
  = Ok (five_cities_tour, [])
  /\ (five_cities_tour = five_cities_tour
      \/ exists best_length initial_length,
           get_trip_length five_cities_tour (zeros 5) = Ok best_length
           /\ get_trip_length five_cities_tour (zeros 5) = Ok initial_length
           /\ (best_length < initial_length)%R).
Proof.
  split; [exact five_cities_run|].
  exact (optimize_route_first_or_shorter five_cities_tour (zeros 5) 50 2 1
           [0; 1; 5; 0; 1; 5] [] five_cities_tour five_cities_run).
Defined.

(** ** Acceptance, errors and small tours *)

Section Acceptance.

Variable distances : matrix.
Variable dt : R.

Lemma boltzmann_exponent_zero (dL temperature : R) :
  dL = 0%R \/ temperature = 0%R -> boltzmann_exponent dL temperature = 0%R.
Proof.
  unfold boltzmann_exponent, k. intros [-> | ->]; field.
Qed.



Lemma get_trip_length_raised (route : Route) (e : exn) :
  get_trip_length route distances = Raise e -> e = IndexError.
Proof.
  unfold get_trip_length. generalize 0%R.
  induction route as [|a route IH]; intros sum; [discriminate|].
  destruct route as [|b route]; [discriminate|].
  cbn [trip_from]. unfold matrix_at, index.
  destruct ((a <? - Z.of_nat (length distances))
            || (Z.of_nat (length distances) <=? a));
    cbn [bind]; [now intros [= <-]|].
  destruct (nth_error distances _) as [row|]; cbn [bind];
    [|now intros [= <-]].
  destruct ((b <? - Z.of_nat (length row)) || (Z.of_nat (length row) <=? b));
    cbn [bind]; [now intros [= <-]|].
  destruct (nth_error row _) as [d|]; cbn [bind]; [|now intros [= <-]].
  apply IH.
Qed.

Lemma get_trip_length_draws_nothing (route : Route) :
  get_trip_length route distances <> OutOfDraws.
Proof.
  unfold get_trip_length. generalize 0%R.
  induction route as [|a route IH]; intros sum; [discriminate|].
  destruct route as [|b route]; [discriminate|].
  cbn [trip_from]. unfold matrix_at, index.
  destruct ((a <? - Z.of_nat (length distances))
            || (Z.of_nat (length distances) <=? a));
    cbn [bind]; [discriminate|].
  destruct (nth_error distances _) as [row|]; cbn [bind]; [|discriminate].
  destruct ((b <? - Z.of_nat (length row)) || (Z.of_nat (length row) <=? b));
    cbn [bind]; [discriminate|].
  destruct (nth_error row _) as [d|]; cbn [bind]; [|discriminate].
  apply IH.
Qed.

(** The exceptions of a trial and where they come from. *)
Lemma trial_raised (st : state) (t : tape) (e : exn) :
  trial distances dt st t = Raise e ->
  e = ValueError /\ (length (current_route st) <= 3)%nat
  \/ e = IndexError /\ (4 <= length (current_route st))%nat.
Proof.
  intros Htrial.
  destruct (swap_cities (current_route st) t) as [[new_route t1]|e1|] eqn:Hswap.
  - destruct (get_trip_length new_route distances) as [new_length|e1|] eqn:Hlen.
    + destruct (Rlt_dec new_length (current_length st)) as [Hlt|Hge].
      * rewrite (trial_shorter _ _ _ _ _ _ _ Hswap Hlen Hlt) in Htrial.
        discriminate.
      * rewrite (trial_not_shorter _ _ _ _ _ _ _ Hswap Hlen Hge) in Htrial.
        destruct t1 as [|draw t2]; [discriminate|].
        destruct (Rltb (uniform_value draw) _); discriminate.
    + unfold trial, bindR in Htrial. rewrite Hswap in Htrial.
      unfold lift at 1 in Htrial. rewrite Hlen in Htrial.
      injection Htrial as <-. right.
      split; [now apply (get_trip_length_raised new_route)|].
      destruct (swap_cities_returned _ _ _ _ Hswap) as (c1 & c2 & ? & ? & ? & _).
      lia.
    + now apply get_trip_length_draws_nothing in Hlen.
  - unfold trial, bindR in Htrial. rewrite Hswap in Htrial.
    injection Htrial as <-. left. now apply (swap_cities_raised _ t).
  - unfold trial, bindR in Htrial. rewrite Hswap in Htrial. discriminate.
Qed.

Lemma trial_keeps_length (st st' : state) (t t' : tape) :
  trial distances dt st t = Ok (st', t') ->
  length (current_route st') = length (current_route st).
Proof.
  intros Htrial.
  destruct (trial_inversion _ _ _ _ _ _ Htrial)
    as (new_route & t1 & new_length & Hswap & _ & Hcases).
  assert (Hnew : length new_route = length (current_route st)).
  { destruct (swap_cities_returned _ _ _ _ Hswap)
      as (c1 & c2 & H1 & H12 & H2 & ->).
    now apply length_reverse_between. }
  destruct Hcases as [(_ & _ & -> & _)|(_ & _ & _ & _ & [(-> & _)|(-> & _)])];
    congruence.
Qed.

Lemma run_trials_raised (n : nat) (st : state) (t : tape) (e : exn) :
  run_trials distances dt n st t = Raise e ->
  e = ValueError /\ (length (current_route st) <= 3)%nat
  \/ e = IndexError /\ (4 <= length (current_route st))%nat.
Proof.
  revert st t. induction n as [|n IH]; intros st t Hrun; [discriminate|].
  cbn [run_trials] in Hrun. unfold bindR in Hrun.
  destruct (trial distances dt st t) as [[st1 t1]|e1|] eqn:Htrial;
    try discriminate.
  - rewrite <- (trial_keeps_length _ _ _ _ Htrial). now apply (IH st1 t1).
  - injection Hrun as <-. now apply (trial_raised st t).
Qed.

Lemma run_trials_four_entries (n : nat) (st : state) (t : tape) :
  length (current_route st) = 4%nat ->
  run_trials distances dt (S n) st t = OutOfDraws.
Proof.
  intros Hlen. cbn [run_trials]. unfold trial, bindR.
  now rewrite swap_cities_four_entries.
Qed.

End Acceptance.

(** X11. A candidate that is exactly as long as the current route is
    always accepted, and at temperature zero every candidate is accepted:
    in both cases the exponent is 0, the sample is below exp(0) = 1, and
    the trial makes the candidate the current route. *)
Theorem trial_accepts_at_zero_exponent (distances : matrix) (dt : R)
  (st : state) (t t2 : tape) (draw : Z) (new_route : Route) (new_length : R) :
  swap_cities (current_route st) t = Ok (new_route, draw :: t2) ->
  get_trip_length new_route distances = Ok new_length ->
  ~ (new_length < current_length st)%R ->
  new_length = current_length st \/ temperature st = 0%R ->
  trial distances dt st t
  = Ok (mkState (temperature st + dt) new_route new_length
          (best_route st) (shortest_length st), t2).
Proof.
  intros Hswap Hlen Hge Hzero.
  rewrite (trial_not_shorter _ _ _ _ _ _ _ Hswap Hlen Hge).
  rewrite Rltb_true; [reflexivity|].
  rewrite boltzmann_exponent_zero by (destruct Hzero; [left|right]; lra).
  rewrite exp_0. apply uniform_value_range.
Qed.

Lemma trial_accepts_at_zero_exponent_witness :
  trial (zeros 5) 1 five_cities_state [0; 1; 5]
  = Ok (mkState (50 + 1) [0; 3; 2; 1; 4; 0] five_zero_edges
          five_cities_tour five_zero_edges, []).
Proof.
  apply (trial_accepts_at_zero_exponent (zeros 5) 1 five_cities_state
           [0; 1; 5] [] 5 [0; 3; 2; 1; 4; 0] five_zero_edges eq_refl eq_refl).
  - cbn. lra.
  - left. reflexivity.
Defined.





Lemma optimize_route_four_entries (route : Route) (distances : matrix)
  (initial_temperature : R) (trials : Z) (final_temperature : R) (t : tape)
  (initial_length : R) :
  length route = 4%nat ->
  get_trip_length route distances = Ok initial_length ->
  2 <= trials ->
  optimize_route route distances initial_temperature trials
    final_temperature t = OutOfDraws.
Proof.
  intros Hlen Hinit Htrials. rewrite optimize_route_unfold.
  unfold initial_state. rewrite Hinit. cbn [bind]. unfold temperature_step.
  rewrite (proj2 (Z.eqb_neq (trials - 1) 0)) by lia.
  destruct (Z.to_nat trials) as [|n] eqn:Hn; [lia|].
  now rewrite run_trials_four_entries.
Qed.

Lemma optimize_route_short_route (route : Route) (distances : matrix)
  (initial_temperature : R) (trials : Z) (final_temperature : R) (t : tape)
  (initial_length : R) :
  (length route <= 3)%nat ->
  get_trip_length route distances = Ok initial_length ->
  2 <= trials ->
  optimize_route route distances initial_temperature trials
    final_temperature t = Raise ValueError.
Proof.
  intros Hlen Hinit Htrials. rewrite optimize_route_unfold.
  unfold initial_state. rewrite Hinit. cbn [bind]. unfold temperature_step.
  rewrite (proj2 (Z.eqb_neq (trials - 1) 0)) by lia.
  destruct (Z.to_nat trials) as [|n] eqn:Hn; [lia|].
  cbn [run_trials]. unfold bindR. now rewrite trial_short_route.
Qed.

(** X14. A tour of three cities stalls [optimize_route]: when the route has
    four entries, its length can be computed and there are at least two
    trials, the first trial never finds a second position, and the call
    returns on no tape. *)
Theorem optimize_route_three_cities_stall (route : Route)
  (distances : matrix) (initial_temperature : R) (trials : Z)
  (final_temperature : R) (t : tape) (initial_length : R) :
  length route = 4%nat ->
  get_trip_length route distances = Ok initial_length ->
  2 <= trials ->
  optimize_route route distances initial_temperature trials
    final_temperature t = OutOfDraws.
Proof.
  intros Hlen Hinit Htrials. rewrite optimize_route_unfold.
  unfold initial_state. rewrite Hinit. cbn [bind]. unfold temperature_step.
  rewrite (proj2 (Z.eqb_neq (trials - 1) 0)) by lia.
  destruct (Z.to_nat trials) as [|n] eqn:Hn; [lia|].
  cbn [run_trials]. unfold trial, bindR.
  now rewrite swap_cities_four_entries.
Qed.

Lemma optimize_route_three_cities_stall_witness :
  optimize_route [0; 1; 2; 0] (zeros 3) 50 2 1 [0; 1; 2; 3; 4; 5; 6; 7]
  = OutOfDraws.
Proof.
  apply (optimize_route_three_cities_stall [0; 1; 2; 0] (zeros 3) 50 2 1
           [0; 1; 2; 3; 4; 5; 6; 7] (0 + 0 + 0 + 0)%R eq_refl eq_refl).
  lia.
Defined.

(** ** Route files written by hand *)

Section PaddedRoutes.

Lemma blanks_all_space (s : text) : blanks s -> all_space s.
Proof.
  unfold blanks, all_space. rewrite !forallb_forall. intros H c Hc.
  specialize (H c Hc). apply orb_true_iff in H as [H|H];
    apply Ascii.eqb_eq in H; subst c; reflexivity.
Qed.

Lemma blanks_no_CR (s : text) : blanks s -> no_CR s.
Proof.
  unfold blanks, no_CR. rewrite !forallb_forall. intros H c Hc.
  specialize (H c Hc). apply orb_true_iff in H as [H|H];
    apply Ascii.eqb_eq in H; subst c; reflexivity.
Qed.

Lemma blanks_no_LF (s : text) : blanks s -> no_LF s.
Proof.
  unfold blanks, no_LF. rewrite !forallb_forall. intros H c Hc.
  specialize (H c Hc). apply orb_true_iff in H as [H|H];
    apply Ascii.eqb_eq in H; subst c; reflexivity.
Qed.

Lemma no_CR_app (s1 s2 : text) : no_CR s1 -> no_CR s2 -> no_CR (s1 ++ s2).
Proof.
  unfold no_CR. intros H1 H2. now rewrite forallb_app, H1, H2.
Qed.

Lemma no_LF_app (s1 s2 : text) : no_LF s1 -> no_LF s2 -> no_LF (s1 ++ s2).
Proof.
  unfold no_LF. intros H1 H2. now rewrite forallb_app, H1, H2.
Qed.

Lemma all_space_app (s1 s2 : text) :
  all_space s1 -> all_space s2 -> all_space (s1 ++ s2).
Proof.
  unfold all_space. intros H1 H2. now rewrite forallb_app, H1, H2.
Qed.

Lemma universal_newlines_app (s rest : text) :
  no_CR s -> universal_newlines (s ++ rest) = s ++ universal_newlines rest.
Proof.
  unfold no_CR. induction s as [|c s IH]; [reflexivity|].
  intros H. apply andb_true_iff in H as [Hc Hs].
  apply negb_true_iff in Hc. cbn [app universal_newlines]. rewrite Hc.
  now rewrite IH.
Qed.

Lemma universal_newlines_line_end (crlf : bool) (rest : text) :
  universal_newlines ((if crlf then [CR; LF] else [LF]) ++ rest)
  = LF :: universal_newlines rest.
Proof. destruct crlf; reflexivity. Qed.

Lemma read_padded_lines (entries : list (text * Z * text * bool))
  (acc : Route) :
  Forall padded_blanks entries ->
  fold_left keep_int
    (lines_from (universal_newlines (concat (map padded_line entries))) [])
    acc
  = acc ++ map padded_number entries.
Proof.
  revert acc. induction entries as [|[[[before n] after] crlf] entries IH];
    intros acc Hall.
  - cbn. now rewrite app_nil_r.
  - inversion Hall as [|? ? Hpad Hrest]; subst.
    cbn [padded_blanks] in Hpad. destruct Hpad as [Hb Ha].
    cbn [map concat padded_line padded_number].
    replace ((before ++ str n ++ after ++ (if crlf then [CR; LF] else [LF]))
             ++ concat (map padded_line entries))
      with ((before ++ str n ++ after)
            ++ (if crlf then [CR; LF] else [LF])
            ++ concat (map padded_line entries))
      by (now rewrite <- !app_assoc).
    assert (HnoCR : no_CR (before ++ str n ++ after)).
    { apply no_CR_app; [now apply blanks_no_CR|].
      apply no_CR_app; [apply no_space_no_CR, str_no_space|].
      now apply blanks_no_CR. }
    assert (HnoLF : no_LF (before ++ str n ++ after)).
    { apply no_LF_app; [now apply blanks_no_LF|].
      apply no_LF_app; [apply no_space_no_LF, str_no_space|].
      now apply blanks_no_LF. }
    rewrite universal_newlines_app by exact HnoCR.
    rewrite universal_newlines_line_end.
    rewrite lines_from_first_line by exact HnoLF.
    cbn [rev app fold_left]. unfold keep_int at 2.
    replace ((before ++ str n ++ after) ++ [LF])
      with (before ++ str n ++ (after ++ [LF]))
      by (now rewrite <- !app_assoc).
    rewrite int_str_padded.
    + rewrite IH by exact Hrest. now rewrite <- app_assoc.
    + now apply blanks_all_space.
    + apply all_space_app; [now apply blanks_all_space|reflexivity].
Qed.

End PaddedRoutes.

(** X15. [read_route_from_file] reads route files written by hand: when
    every line of the file holds one integer in decimal notation, with any
    blanks and tabs before and after it and a line end of either
    convention (LF or CR LF), the result is exactly the sequence of these
    integers. *)
Theorem read_route_padded_lines (fs : filesystem) (filename : string)
  (entries : list (text * Z * text * bool)) :
  fs filename = Some (concat (map padded_line entries)) ->
  Forall padded_blanks entries ->
  read_route_from_file fs filename = Ok (map padded_number entries).
Proof.
  intros Hfile Hall. unfold read_route_from_file, readlines.
  rewrite Hfile. cbn [bind].
  exact (f_equal Ok (read_padded_lines entries [] Hall)).
Qed.

(** A file with the line 7 ended by CR LF and the line of -12 between
    blanks and a tab ended by LF. *)
Lemma read_route_padded_lines_witness :
  read_route_from_file
    (write_file (fun _ => None) "route.txt"
       (["7"; CR; LF; " "; " "; "-"; "1"; "2"; ascii_of_nat 9; LF]%char))
    "route.txt"
  = Ok [7; -12].
Proof.
  apply (read_route_padded_lines _ "route.txt"
           [([], 7, [], true);
            ([" "; " "]%char, -12, [ascii_of_nat 9], false)]).
  - reflexivity.
  - repeat constructor.
Defined.

(** ** The plot of a route *)

Section Plot.

Lemma route_line_in_bounds (cities : list city) (route : Route)
  (routeline : list city) :
  Forall (in_bounds (length cities)) route ->
  route_line cities route routeline
  = Ok (routeline ++ map (city_at cities) route).
Proof.
  revert routeline. induction route as [|place route IH]; intros acc Hall.
  - cbn. now rewrite app_nil_r.
  - inversion Hall as [|? ? Hp Hrest]; subst. cbn [route_line map].
    rewrite (index_in_bounds _ cities place (0, 0)%R) by exact Hp.
    cbn [bind]. rewrite IH by exact Hrest.
    unfold city_at. now rewrite <- app_assoc.
Qed.

Lemma route_line_out_of_bounds (cities : list city) (route : Route)
  (routeline : list city) :
  Exists (fun place => ~ in_bounds (length cities) place) route ->
  route_line cities route routeline = Raise IndexError.
Proof.
  revert routeline. induction route as [|place route IH]; intros acc Hbad.
  - inversion Hbad.
  - cbn [route_line].
    assert (Hdec : in_bounds (length cities) place
                   \/ ~ in_bounds (length cities) place)
      by (unfold in_bounds; lia).
    destruct Hdec as [Hp|Hp].
    + rewrite (index_in_bounds _ cities place (0, 0)%R) by exact Hp.
      cbn [bind]. apply IH.
      inversion Hbad; subst; [contradiction|assumption].
    + now rewrite index_out_of_bounds.
Qed.

Lemma show_route_in_bounds (cities : list city) (route : Route) :
  route <> [] -> Forall (in_bounds (length cities)) route ->
  show_route cities route = Ok (cities, map (city_at cities) route).
Proof.
  intros Hne Hall. unfold show_route.
  rewrite route_line_in_bounds by exact Hall. cbn [bind app].
  destruct route as [|place route]; [congruence|].
  inversion Hall as [|? ? Hp _]; subst.
  destruct cities as [|c cities]; [unfold in_bounds in Hp; cbn in Hp; lia|].
  reflexivity.
Qed.

End Plot.

(** X16. What [show_route] hands to the plot and when it fails: for a
    route that is not empty and whose places are indices of cities (from
    the front or, when negative, from the end), it plots the cities and
    the line through the cities of the places, in the order of the route;
    for an empty route, and for a route with a place outside the cities,
    it raises IndexError. *)
Theorem show_route_line (cities : list city) (route : Route) :
  (route <> [] -> Forall (in_bounds (length cities)) route ->
   show_route cities route = Ok (cities, map (city_at cities) route))
  /\
  (route = []
   \/ Exists (fun place => ~ in_bounds (length cities) place) route ->
   show_route cities route = Raise IndexError).
Proof.
  split; [apply show_route_in_bounds|].
  intros [-> | Hbad].
  - unfold show_route. cbn. now destruct cities.
  - unfold show_route. now rewrite route_line_out_of_bounds.
Qed.

Lemma show_route_line_witness :
  show_route [(0, 0); (3, 4)]%R [0; -1; 0]
  = Ok ([(0, 0); (3, 4)]%R, [(0, 0); (3, 4); (0, 0)]%R)
  /\ show_route [(0, 0); (3, 4)]%R [] = Raise IndexError.
Proof.
  destruct (show_route_line [(0, 0); (3, 4)]%R [0; -1; 0]) as [Hok _].
  destruct (show_route_line [(0, 0); (3, 4)]%R []) as [_ Hbad].
  split.
  - apply Hok; [discriminate|].
    repeat constructor; unfold in_bounds; cbn; lia.
  - apply Hbad. now left.
Defined.

(** ** The stages of the main program *)

Section Stages.

Variable distances : matrix.

Lemma trial_serves (dt : R) (N n : nat) (Q : tape -> Prop) (st : state)
  (t : tape) :
  (4 <= N)%nat -> square N distances -> valid_tour N (current_route st) ->
  serves (S n) Q t ->
  exists st' t', trial distances dt st t = Ok (st', t') /\ serves n Q t'.
Proof.
  intros HN Hsq Hvalid (same & d & rest & -> & Hsame & Hd & Hrest).
  pose proof Hvalid as (Hlen & _).
  set (high := Z.of_nat (length (current_route st)) - 1).
  assert (H0 : randint_value 2 high 0 = 2).
  { unfold randint_value. rewrite Z.mod_0_l by lia. lia. }
  assert (H1 : randint_value 2 high 1 = 3).
  { unfold randint_value. rewrite Z.mod_1_l by lia. lia. }
  assert (Hswap : swap_cities (current_route st) (0 :: same ++ 1 :: d :: rest)
                  = Ok (reverse_between (current_route st) 2 3, d :: rest)).
  { rewrite (swap_cities_distinct_draw (current_route st) 0 1 same (d :: rest)).
    - fold high. rewrite H0, H1. reflexivity.
    - lia.
    - fold high. apply Forall_forall. intros z Hz.
      rewrite Forall_forall in Hsame. now rewrite (Hsame z Hz).
    - fold high. rewrite H0, H1. lia. }
  destruct (valid_tour_length N distances
              (reverse_between (current_route st) 2 3))
    as [new_length Hnew]; [assumption| |lia|].
  { apply reverse_between_tour; try assumption; lia. }
  destruct (Rlt_dec new_length (current_length st)) as [Hlt|Hge].
  - rewrite (trial_shorter _ _ _ _ _ _ _ Hswap Hnew Hlt).
    eexists _, _. split; [reflexivity|exact Hd].
  - rewrite (trial_not_shorter _ _ _ _ _ _ _ Hswap Hnew Hge).
    destruct (Rltb (uniform_value d) _);
      eexists _, _; (split; [reflexivity|exact Hrest]).
Qed.

Lemma run_trials_serves (dt : R) (N n : nat) (Q : tape -> Prop) (st : state)
  (t : tape) :
  (4 <= N)%nat -> square N distances -> valid_tour N (current_route st) ->
  serves n Q t ->
  exists st' t', run_trials distances dt n st t = Ok (st', t') /\ Q t'.
Proof.
  intros HN Hsq. revert st t. induction n as [|n IH]; intros st t Hvalid Ht.
  - now exists st, t.
  - destruct (trial_serves dt N n Q st t HN Hsq Hvalid Ht)
      as (st1 & t1 & Htrial & Ht1).
    cbn [run_trials]. unfold bindR. rewrite Htrial.
    apply IH; [|exact Ht1].
    apply (trial_keeps_tour distances dt N st st1 t t1);
      [lia|assumption|assumption].
Qed.

Lemma optimize_route_serves (N : nat) (Q : tape -> Prop) (route : Route)
  (initial_temperature : R) (trials : Z) (final_temperature : R) (t : tape) :
  (4 <= N)%nat -> square N distances -> valid_tour N route -> trials <> 1 ->
  serves (Z.to_nat trials) Q t ->
  exists best t',
    optimize_route route distances initial_temperature trials
      final_temperature t = Ok (best, t')
    /\ Q t'.
Proof.
  intros HN Hsq Hvalid Htrials Ht. rewrite optimize_route_unfold.
  unfold initial_state.
  destruct (valid_tour_length N distances route Hsq Hvalid ltac:(lia))
    as [initial_length Hinit].
  rewrite Hinit. cbn [bind]. unfold temperature_step.
  rewrite (proj2 (Z.eqb_neq (trials - 1) 0)) by lia.
  destruct (run_trials_serves
              ((final_temperature - initial_temperature) / IZR (trials - 1))%R
              N (Z.to_nat trials) Q
              (mkState initial_temperature route initial_length route
                 initial_length) t HN Hsq Hvalid Ht)
    as (st' & t' & Hrun & HQ).
  rewrite Hrun. now exists (best_route st'), t'.
Qed.

(** The run of [optimize_route] on a valid tour: a returned route is a
    valid tour no longer than the first, and nothing but the ValueError of
    the tours of fewer than three cities is raised. *)
Lemma optimize_route_on_tour (N : nat) (route : Route)
  (initial_temperature : R) (trials : Z) (final_temperature : R) (t : tape) :
  valid_tour N route -> square N distances -> trials <> 1 ->
  match optimize_route route distances initial_temperature trials
          final_temperature t with
  | Ok (best, _) =>
      valid_tour N best
      /\ exists best_length initial_length,
           get_trip_length best distances = Ok best_length
           /\ get_trip_length route distances = Ok initial_length
           /\ (best_length <= initial_length)%R
  | Raise e => e = ValueError /\ (N <= 2)%nat
  | OutOfDraws => True
  end.
Proof.
  intros Hvalid Hsq Htrials.
  destruct (optimize_route route distances initial_temperature trials
              final_temperature t) as [[best t']|e|] eqn:Hrun; [| |exact I].
  - destruct (optimize_route_inversion _ _ _ _ _ _ _ _ Hrun)
      as (initial_length & dt & st & Hinit & Hrun' & ->).
    split.
    + apply (same_cities_valid_tour N route); [exact Hvalid|].
      eapply (run_trials_keeps distances dt
                (fun st => same_cities route (current_route st)
                           /\ same_cities route (best_route st))
                (trial_same_cities distances dt route));
        [|exact Hrun'].
      split; apply same_cities_refl.
    + assert (Hbest : best_within distances initial_length st).
      { eapply (run_trials_keeps distances dt
                  (best_within distances initial_length)
                  (trial_best_within distances dt initial_length));
          [|exact Hrun'].
        split; [exact Hinit|apply Rle_refl]. }
      destruct Hbest as [Hlen Hle].
      now exists (shortest_length st), initial_length.
  - pose proof Hvalid as (Hlen & _).
    rewrite optimize_route_unfold in Hrun. unfold initial_state in Hrun.
    destruct (get_trip_length route distances) as [initial_length|e1|] eqn:Hinit;
      cbn [bind] in Hrun; try discriminate.
    + unfold temperature_step in Hrun.
      rewrite (proj2 (Z.eqb_neq (trials - 1) 0)) in Hrun by lia.
      destruct (run_trials distances _ (Z.to_nat trials) _ t)
        as [[st t1]|e1|] eqn:Hrun'; try discriminate.
      injection Hrun as <-.
      destruct (run_trials_raised _ _ _ _ _ _ Hrun') as [[-> Hshort]|[-> Hlong]].
      * cbn [current_route] in Hshort. split; [reflexivity|lia].
      * exfalso. cbn [current_route] in Hlong.
        eapply (run_trials_no_raise distances _
                  (fun st => valid_tour N (current_route st)));
          [| | |exact Hrun'].
        -- intros st1 st2 t2 t3. apply trial_keeps_tour. lia.
        -- intros st1 t2 e1. apply trial_no_raise; [lia|exact Hsq].
        -- exact Hvalid.
    + injection Hrun as <-. exfalso.
      destruct route as [|a [|b route]].
      * discriminate Hinit.
      * discriminate Hinit.
      * destruct (valid_tour_length N distances (a :: b :: route) Hsq Hvalid)
          as [total Htotal]; [cbn [length] in Hlen; lia|congruence].
Qed.

End Stages.

Section StagesRun.

Lemma serves_ample (n k : nat) (Q : tape -> Prop) :
  Q (ample k) -> Q (tl (ample k)) ->
  serves n Q (ample (n + k)) /\ serves n Q (tl (ample (n + k))).
Proof.
  intros Hk Hk'. induction n as [|n [IH IH']]; [now split|].
  split.
  - exists [0], 0, (tl (ample (n + k))). repeat split; try assumption.
    + cbn [Nat.add ample app]. now rewrite (ample_cons (n + k)) at 1.
    + constructor; [reflexivity|constructor].
    + now rewrite <- ample_cons.
  - exists [], 0, (tl (ample (n + k))). repeat split; try assumption.
    + cbn [Nat.add ample app tl]. now rewrite (ample_cons (n + k)) at 1.
    + constructor.
    + now rewrite <- ample_cons.
Qed.

Lemma stages_tape_serves :
  serves stage_trials
    (serves stage_trials
       (serves stage_trials (serves stage_trials (fun _ => True))))
    stages_tape.
Proof.
  unfold stages_tape. generalize stage_trials. intros n.
  apply serves_ample; apply serves_ample; apply serves_ample;
    apply serves_ample; exact I.
Qed.

(** The four stages on a valid tour. *)
Lemma anneal_stages_on_tour (N : nat) (route : Route) (distances : matrix)
  (t : tape) :
  valid_tour N route -> square N distances ->
  match anneal_stages route distances t with
  | Ok (best, _) =>
      valid_tour N best
      /\ exists best_length initial_length,
           get_trip_length best distances = Ok best_length
           /\ get_trip_length route distances = Ok initial_length
           /\ (best_length <= initial_length)%R
  | Raise e => e = ValueError /\ (N <= 2)%nat
  | OutOfDraws => True
  end.
Proof.
  intros Hvalid Hsq. unfold anneal_stages, bindR.
  pose proof (optimize_route_on_tour distances N route 100 100000 10 t
                Hvalid Hsq ltac:(discriminate)) as H1.
  destruct (optimize_route route distances 100 100000 10 t)
    as [[r1 t1]|e|]; [|exact H1|exact I].
  destruct H1 as (V1 & b1 & l0 & Hb1 & Hl0 & Hle1).
  pose proof (optimize_route_on_tour distances N r1 10 100000 1 t1
                V1 Hsq ltac:(discriminate)) as H2.
  destruct (optimize_route r1 distances 10 100000 1 t1)
    as [[r2 t2]|e|]; [|exact H2|exact I].
  destruct H2 as (V2 & b2 & l1 & Hb2 & Hl1 & Hle2).
  pose proof (optimize_route_on_tour distances N r2 1 100000 (1 / 10) t2
                V2 Hsq ltac:(discriminate)) as H3.
  destruct (optimize_route r2 distances 1 100000 (1 / 10) t2)
    as [[r3 t3]|e|]; [|exact H3|exact I].
  destruct H3 as (V3 & b3 & l2 & Hb3 & Hl2 & Hle3).
  pose proof (optimize_route_on_tour distances N r3 (1 / 10) 100000 (1 / 100)
                t3 V3 Hsq ltac:(discriminate)) as H4.
  destruct (optimize_route r3 distances (1 / 10) 100000 (1 / 100) t3)
    as [[r4 t4]|e|]; [|exact H4|exact I].
  destruct H4 as (V4 & b4 & l3 & Hb4 & Hl3 & Hle4).
  split; [exact V4|]. exists b4, l0. repeat split; try assumption.
  assert (l1 = b1) by congruence. assert (l2 = b2) by congruence.
  assert (l3 = b3) by congruence. lra.
Qed.

Lemma anneal_stages_returns (N : nat) (route : Route) (distances : matrix) :
  valid_tour N route -> square N distances -> (4 <= N)%nat ->
  exists best t', anneal_stages route distances stages_tape = Ok (best, t').
Proof.
  intros Hvalid Hsq HN. unfold anneal_stages, bindR.
  destruct (optimize_route_serves distances N _ route 100 100000 10
              stages_tape HN Hsq Hvalid ltac:(discriminate)
              stages_tape_serves) as (r1 & t1 & Hr1 & Ht1).
  pose proof (optimize_route_on_tour distances N route 100 100000 10
                stages_tape Hvalid Hsq ltac:(discriminate)) as V1.
  rewrite Hr1 in V1 |- *. destruct V1 as [V1 _].
  destruct (optimize_route_serves distances N _ r1 10 100000 1
              t1 HN Hsq V1 ltac:(discriminate) Ht1)
    as (r2 & t2 & Hr2 & Ht2).
  pose proof (optimize_route_on_tour distances N r1 10 100000 1
                t1 V1 Hsq ltac:(discriminate)) as V2.
  rewrite Hr2 in V2 |- *. destruct V2 as [V2 _].
  destruct (optimize_route_serves distances N _ r2 1 100000 (1 / 10)
              t2 HN Hsq V2 ltac:(discriminate) Ht2)
    as (r3 & t3 & Hr3 & Ht3).
  pose proof (optimize_route_on_tour distances N r2 1 100000 (1 / 10)
                t2 V2 Hsq ltac:(discriminate)) as V3.
  rewrite Hr3 in V3 |- *. destruct V3 as [V3 _].
  destruct (optimize_route_serves distances N _ r3 (1 / 10) 100000 (1 / 100)
              t3 HN Hsq V3 ltac:(discriminate) Ht3)
    as (r4 & t4 & Hr4 & _).
  rewrite Hr4. now exists r4, t4.
Qed.

End StagesRun.

(** X17. The four stages of [main], each [optimize_route] started from the
    route of the stage before: on a valid tour of N cities and an N x N
    matrix, whatever the draws, a returned route is a valid tour of the
    same cities and no longer than the tour the stages started from;
    nothing but the ValueError of tours of fewer than three cities is
    raised; and for at least four cities the stages do return a route on a
    tape that serves all their trials. *)
Theorem anneal_stages_never_longer (N : nat) (route : Route)
  (distances : matrix) :
  valid_tour N route -> square N distances ->
  (forall t : tape,
     match anneal_stages route distances t with
     | Ok (best, _) =>
         valid_tour N best
         /\ exists best_length initial_length,
              get_trip_length best distances = Ok best_length
              /\ get_trip_length route distances = Ok initial_length
              /\ (best_length <= initial_length)%R
     | Raise e => e = ValueError /\ (N <= 2)%nat
     | OutOfDraws => True
     end)
  /\
  ((4 <= N)%nat ->
   exists best t', anneal_stages route distances stages_tape = Ok (best, t')).
Proof.
  intros Hvalid Hsq. split.
  - intros t. now apply anneal_stages_on_tour.
  - intros HN. now apply (anneal_stages_returns N).
Qed.

Lemma anneal_stages_never_longer_witness :
  exists best t',
    anneal_stages five_cities_tour (zeros 5) stages_tape = Ok (best, t')
    /\ valid_tour 5 best.
Proof.
  assert (Hvalid : valid_tour 5 five_cities_tour).
  { repeat split. apply Permutation_refl. }
  destruct (anneal_stages_never_longer 5 five_cities_tour (zeros 5)
              Hvalid (square_zeros 5)) as [Hall Hreturns].
  destruct (Hreturns ltac:(lia)) as (best & t' & Hrun).
  exists best, t'. split; [exact Hrun|].
  specialize (Hall stages_tape). rewrite Hrun in Hall. exact (proj1 Hall).
Defined.

(** ** The main program *)

Section MainFacts.

Variable float : text -> option R.

Lemma read_written_file (route : Route) (filename : string) (fs : filesystem) :
  read_route_from_file (write_file fs filename (written route)) filename
  = Ok route.
Proof.
  unfold read_route_from_file, readlines, write_file.
  rewrite String.eqb_refl. cbn [bind].
  rewrite universal_newlines_no_CR by apply written_no_CR.
  exact (f_equal Ok (read_written route [] [] (or_introl eq_refl))).
Qed.

Lemma write_route_written (route : Route) (filename : string)
  (fs : filesystem) :
  write_route_to_file route filename fs
  = write_file fs filename (written route).
Proof.
  unfold write_route_to_file. now rewrite writelines_written.
Qed.

Lemma valid_tour_in_bounds (N : nat) (route : Route) :
  valid_tour N route -> (1 <= N)%nat -> Forall (in_bounds N) route.
Proof.
  intros Hvalid HN. pose proof (valid_tour_in_range N route Hvalid HN) as H.
  eapply Forall_impl; [|exact H].
  intros a Ha. cbv beta in Ha. unfold in_bounds. lia.
Qed.

(** [main] once the cities are read and no file has the empty name. *)
Lemma main_unfold (fs : filesystem) (cities : list city) (t : tape) :
  read_cities_from_file float fs "cities20.txt" = Ok cities ->
  fs ""%string = None ->
  main float fs t
  = match create_random_route cities t with
    | Ok (route0, t1) =>
        match get_trip_length route0 (calculate_distances cities) with
        | Ok _ =>
            match anneal_stages route0 (calculate_distances cities) t1 with
            | Ok (route, t2) =>
                match get_trip_length route (calculate_distances cities) with
                | Ok _ =>
                    match show_route cities route with
                    | Ok _ =>
                        Ok (route,
                            write_route_to_file route "best_route.txt" fs, t2)
                    | Raise e => Raise e
                    | OutOfDraws => OutOfDraws
                    end
                | Raise e => Raise e
                | OutOfDraws => OutOfDraws
                end
            | Raise e => Raise e
            | OutOfDraws => OutOfDraws
            end
        | Raise e => Raise e
        | OutOfDraws => OutOfDraws
        end
    | Raise e => Raise e
    | OutOfDraws => OutOfDraws
    end.
Proof.
  intros Hcities Hnone. unfold main, bindR, initial_route.
  unfold lift at 1. rewrite Hcities.
  unfold read_route_from_file, readlines. rewrite Hnone. cbn [bind].
  destruct (create_random_route cities t) as [[route0 t1]|e|]; try reflexivity.
  unfold lift at 1.
  destruct (get_trip_length route0 (calculate_distances cities));
    try reflexivity.
  destruct (anneal_stages route0 (calculate_distances cities) t1)
    as [[route t2]|e|]; try reflexivity.
  unfold lift at 1.
  destruct (get_trip_length route (calculate_distances cities));
    try reflexivity.
  unfold lift.
  destruct (show_route cities route); reflexivity.
Qed.

Lemma read_cities_well_formed (fs : filesystem) (lines : list text) :
  readlines fs "cities20.txt" = Ok lines ->
  Forall (fun line => blank line \/ leading_pair float line <> None) lines ->
  read_cities_from_file float fs "cities20.txt" = Ok (cities_of float lines).
Proof.
  intros Hread Hlines. unfold read_cities_from_file. rewrite Hread.
  cbn [bind]. now rewrite read_city_lines_ok.
Qed.

(** The steps of [main] after the stages, on a valid tour. *)
Lemma after_stages (cities : list city) (route : Route) :
  (1 <= length cities)%nat -> valid_tour (length cities) route ->
  (exists total,
     get_trip_length route (calculate_distances cities) = Ok total)
  /\ exists plotted, show_route cities route = Ok plotted.
Proof.
  intros HN Hvalid.
  destruct (calculate_distances_filled cities) as [Hsq _]. split.
  - now apply (valid_tour_length (length cities)).
  - eexists. apply show_route_in_bounds.
    + destruct Hvalid as (Hlen & _). intros ->. discriminate.
    + now apply valid_tour_in_bounds.
Qed.

End MainFacts.

(** X18. [main] on few cities, no file having the empty name: a file of
    cities without any city makes it raise IndexError, from the random
    route; with one or two cities it raises ValueError, from the first
    trial of the first stage; with three cities the first trial never ends
    and [main] returns on no tape. *)
Theorem main_few_cities (float : text -> option R) (fs : filesystem)
  (lines : list text) :
  readlines fs "cities20.txt" = Ok lines ->
  Forall (fun line => blank line \/ leading_pair float line <> None) lines ->
  fs ""%string = None ->
  (length (cities_of float lines) = 0%nat ->
   forall t, main float fs t = Raise IndexError)
  /\
  ((1 <= length (cities_of float lines) <= 2)%nat ->
   forall t, (length (cities_of float lines) - 1 <= length t)%nat ->
             main float fs t = Raise ValueError)
  /\
  (length (cities_of float lines) = 3%nat ->
   forall t, main float fs t = OutOfDraws).
Proof.
  intros Hread Hlines Hnone.
  pose proof (read_cities_well_formed float fs lines Hread Hlines) as Hcities.
  set (cities := cities_of float lines) in *.
  destruct (calculate_distances_filled cities) as [Hsq _].
  split; [|split].
  - intros HN t. rewrite (main_unfold float fs cities t Hcities Hnone).
    now rewrite create_random_route_no_city.
  - intros HN t Ht. rewrite (main_unfold float fs cities t Hcities Hnone).
    destruct (create_random_route_returns cities t ltac:(lia) Ht)
      as (route0 & -> & Hvalid).
    destruct (valid_tour_length _ _ route0 Hsq Hvalid ltac:(lia))
      as [total Htotal].
    rewrite Htotal. unfold anneal_stages, bindR.
    rewrite (optimize_route_short_route route0 _ 100 100000 10 _ total);
      [reflexivity| |exact Htotal|lia].
    destruct Hvalid as (Hlen & _). lia.
  - intros HN t. rewrite (main_unfold float fs cities t Hcities Hnone).
    destruct (Nat.lt_ge_cases (length t) (length cities - 1)) as [Hshort|Ht].
    + now rewrite create_random_route_short_tape.
    + destruct (create_random_route_returns cities t ltac:(lia) Ht)
        as (route0 & -> & Hvalid).
      destruct (valid_tour_length _ _ route0 Hsq Hvalid ltac:(lia))
        as [total Htotal].
      rewrite Htotal. unfold anneal_stages, bindR.
      rewrite (optimize_route_four_entries route0 _ 100 100000 10 _ total);
        [reflexivity| |exact Htotal|lia].
      destruct Hvalid as (Hlen & _). lia.
Qed.

(** An empty file of cities. *)
Lemma main_few_cities_witness :
  main float_of_decimal (write_file (fun _ => None) "cities20.txt" []) [0; 1; 2]
  = Raise IndexError.
Proof.
  destruct (main_few_cities float_of_decimal
              (write_file (fun _ => None) "cities20.txt" []) []
              eq_refl (Forall_nil _) eq_refl) as (Hnone & _ & _).
  apply Hnone. reflexivity.
Defined.

(** X19. [main] from end to end, on a file of cities whose lines are blank
    or well formed and with no file of the empty name: whatever the draws,
    when [main] returns, the route it has found is a valid tour of the N
    cities of the file, the file best_route.txt it has written reads back
    as that route, and every other file is as before; [main] raises only
    when there are fewer than three cities; and with at least four cities
    it does return on a tape that serves the random route and the
    stages. *)
Theorem main_end_to_end (float : text -> option R) (fs : filesystem)
  (lines : list text) :
  readlines fs "cities20.txt" = Ok lines ->
  Forall (fun line => blank line \/ leading_pair float line <> None) lines ->
  fs ""%string = None ->
  (forall t : tape,
     match main float fs t with
     | Ok (route, fs', _) =>
         valid_tour (length (cities_of float lines)) route
         /\ read_route_from_file fs' "best_route.txt" = Ok route
         /\ (forall name, name <> "best_route.txt"%string ->
                          fs' name = fs name)
     | Raise _ => (length (cities_of float lines) <= 2)%nat
     | OutOfDraws => True
     end)
  /\
  ((4 <= length (cities_of float lines))%nat ->
   exists route fs' t',
     main float fs (main_tape (length (cities_of float lines)))
     = Ok (route, fs', t')).
Proof.
  intros Hread Hlines Hnone.
  pose proof (read_cities_well_formed float fs lines Hread Hlines) as Hcities.
  set (cities := cities_of float lines) in *.
  destruct (calculate_distances_filled cities) as [Hsq _].
  split.
  - intros t. rewrite (main_unfold float fs cities t Hcities Hnone).
    destruct (Nat.eq_dec (length cities) 0) as [H0|H0].
    { rewrite create_random_route_no_city by exact H0. lia. }
    destruct (Nat.lt_ge_cases (length t) (length cities - 1)) as [Hshort|Ht].
    { now rewrite create_random_route_short_tape. }
    destruct (create_random_route_returns cities t ltac:(lia) Ht)
      as (route0 & -> & Hvalid0).
    destruct (valid_tour_length _ _ route0 Hsq Hvalid0 ltac:(lia))
      as [total0 Htotal0].
    rewrite Htotal0.
    pose proof (anneal_stages_on_tour (length cities) route0
                  (calculate_distances cities)
                  (skipn (length cities - 1) t) Hvalid0 Hsq) as Hstages.
    destruct (anneal_stages route0 (calculate_distances cities) _)
      as [[route t2]|e|]; [|exact (proj2 Hstages)|exact I].
    destruct Hstages as [Hvalid _].
    destruct (after_stages cities route ltac:(lia) Hvalid)
      as [[total ->] [plotted ->]].
    split; [exact Hvalid|]. rewrite write_route_written. split.
    + apply read_written_file.
    + intros name Hname. unfold write_file.
      now rewrite (proj2 (String.eqb_neq name "best_route.txt") Hname).
  - intros HN.
    rewrite (main_unfold float fs cities _ Hcities Hnone). unfold main_tape.
    destruct (create_random_route_returns cities
                (repeat 0 (length cities - 1) ++ stages_tape) ltac:(lia))
      as (route0 & Hroute0 & Hvalid0).
    { rewrite length_app, repeat_length. lia. }
    rewrite Hroute0.
    replace (skipn (length cities - 1)
               (repeat 0 (length cities - 1) ++ stages_tape))
      with stages_tape.
    2:{ rewrite skipn_app, repeat_length, Nat.sub_diag.
        rewrite skipn_all2 by (rewrite repeat_length; lia). reflexivity. }
    destruct (valid_tour_length _ _ route0 Hsq Hvalid0 ltac:(lia))
      as [total0 ->].
    destruct (anneal_stages_returns (length cities) route0
                (calculate_distances cities) Hvalid0 Hsq HN)
      as (route & t' & Hrun).
    pose proof (anneal_stages_on_tour (length cities) route0
                  (calculate_distances cities) stages_tape Hvalid0 Hsq)
      as Hstages.
    rewrite Hrun in Hstages |- *. destruct Hstages as [Hvalid _].
    destruct (after_stages cities route ltac:(lia) Hvalid)
      as [[total ->] [plotted ->]].
    now eexists _, _, _.
Qed.

(** On the file with the four corners of the unit square [main] returns a
    valid tour of the four cities, and the written file reads back as
    it. *)
Lemma main_end_to_end_witness :
  exists route fs' t',
    main float_of_decimal unit_square_file (main_tape 4) = Ok (route, fs', t')
    /\ valid_tour 4 route
    /\ read_route_from_file fs' "best_route.txt" = Ok route.
Proof.
  destruct (main_end_to_end float_of_decimal unit_square_file
              (map (fun l => list_ascii_of_string l ++ [LF])
                 ["0 0"; "0 1"; "1 1"; "1 0"]%string)
              eq_refl) as [Hall Hreturns].
  - cbn [map]. repeat (apply Forall_cons;
      [right; intro H; vm_compute in H; discriminate H|]).
    apply Forall_nil.
  - reflexivity.
  - change (length (cities_of float_of_decimal
                      (map (fun l => list_ascii_of_string l ++ [LF])
                         ["0 0"; "0 1"; "1 1"; "1 0"]%string)))
      with 4%nat in Hreturns.
    destruct (Hreturns ltac:(lia)) as (route & fs' & t' & Hrun).
    change (length (cities_of float_of_decimal
                      (map (fun l => list_ascii_of_string l ++ [LF])
                         ["0 0"; "0 1"; "1 1"; "1 0"]%string)))
      with 4%nat in Hall.
    exists route, fs', t'. split; [exact Hrun|].
    specialize (Hall (main_tape 4)). rewrite Hrun in Hall.
    destruct Hall as (Hvalid & Hback & _). now split.
Defined.
